(** * dependent-c: the term representation and its semantic operations

    A shallow embedding of the AST layer of the dependent-c front end
    (literals, expressions, statements, blocks) together with structural
    equality, deep copy, free-variable analysis and substitution, and the
    properties of these operations that the specification states. *)

From stdpp Require Import gmap strings stringmap list.

#[global] Set Warnings "-register-all".

(** ** Symbols, symbol sets and the symbol registry *)

(** Modelled from the spec: the symbol registry and the symbol set are
    external collaborators ([symbol_table.h] is not part of the sources).
    An interned symbol is identified with its text, so that handle identity
    is equality of strings. *)
Abbreviation symbol := string (only parsing).
Abbreviation SymbolSet := (gset string) (only parsing).

Definition symbol_set_empty : SymbolSet := ∅.
Definition symbol_set_add (set : SymbolSet) (sym : symbol) : SymbolSet :=
  {[ sym ]} ∪ set.
Definition symbol_set_delete (set : SymbolSet) (sym : symbol) : SymbolSet :=
  set ∖ {[ sym ]}.
Definition symbol_set_contains (set : SymbolSet) (sym : symbol) : bool :=
  bool_decide (sym ∈ set).
Definition symbol_set_union (dst src : SymbolSet) : SymbolSet := dst ∪ src.

(** Modelled from the spec: the part of the per-invocation context that
    substitution uses, namely the symbols interned so far. *)
Record Context := { interns : gset string }.

(** Modelled from the spec: [gensym(base)] returns a symbol that was never
    interned before, derived textually from [base], and registers it. *)
Definition symbol_gensym (context : Context) (base : symbol)
  : symbol * Context :=
  let sym := fresh_string_of_set base (interns context) in
  (sym, {| interns := {[ sym ]} ∪ interns context |}).

(** ** The AST *)

Inductive Literal :=
| LIT_TYPE
| LIT_VOID
| LIT_U8 | LIT_S8
| LIT_U16 | LIT_S16
| LIT_U32 | LIT_S32
| LIT_U64 | LIT_S64
| LIT_BOOL
| LIT_INTEGRAL (integral : N)
| LIT_BOOLEAN (boolean : bool).

Inductive BinaryOp :=
| BIN_OP_EQ | BIN_OP_NE
| BIN_OP_LT | BIN_OP_LTE
| BIN_OP_GT | BIN_OP_GTE
| BIN_OP_ADD | BIN_OP_SUB
| BIN_OP_ANDTHEN.

#[global] Instance BinaryOp_eq_dec : EqDecision BinaryOp.
Proof. solve_decision. Defined.

(** The parallel arrays of the C structs ([param_types]/[param_names],
    [field_types]/[field_names], [field_names]/[assigns], [ifs]/[thens]),
    which share one length field, are lists of pairs.  A [NULL] parameter
    name of a function type is [None].  Source locations are carried along
    by the C code but never inspected by the operations below; they are
    left out. *)
Inductive Expr :=
| EXPR_LITERAL (literal : Literal)
| EXPR_IDENT (ident : symbol)
| EXPR_BIN_OP (op : BinaryOp) (expr1 expr2 : Expr)
| EXPR_IFTHENELSE (predicate then_ else_ : Expr)
| EXPR_FUNC_TYPE (ret_type : Expr) (params : list (Expr * option symbol))
| EXPR_LAMBDA (params : list (Expr * symbol)) (body : Expr)
| EXPR_CALL (func : Expr) (args : list Expr)
| EXPR_STRUCT (fields : list (Expr * symbol))
| EXPR_UNION (fields : list (Expr * symbol))
| EXPR_PACK (type : Expr) (assigns : list (symbol * Expr))
| EXPR_MEMBER (record : Expr) (field : symbol)
| EXPR_POINTER (pointer : Expr)
| EXPR_REFERENCE (pointer : Expr)
| EXPR_DEREFERENCE (pointer : Expr)
| EXPR_STATEMENT (statement : Statement)
with Statement :=
| STATEMENT_EMPTY
| STATEMENT_EXPR (expr : Expr)
| STATEMENT_RETURN (expr : Expr)
| STATEMENT_BLOCK (block : list Statement)
| STATEMENT_DECL (type : Expr) (name : symbol) (initial_value : option Expr)
| STATEMENT_IFTHENELSE (ifs : list (Expr * list Statement))
                       (else_ : list Statement).

Abbreviation Block := (list Statement) (only parsing).

(** *** Induction over the nested, mutually defined syntax *)

Section AstInd.
Variables (P : Expr → Prop) (Q : Statement → Prop).

Hypothesis Hlit : ∀ l, P (EXPR_LITERAL l).
Hypothesis Hident : ∀ s, P (EXPR_IDENT s).
Hypothesis Hbin : ∀ op a b, P a → P b → P (EXPR_BIN_OP op a b).
Hypothesis Hite : ∀ a b c, P a → P b → P c → P (EXPR_IFTHENELSE a b c).
Hypothesis Hfunc : ∀ ret ps,
  P ret → Forall (λ p, P p.1) ps → P (EXPR_FUNC_TYPE ret ps).
Hypothesis Hlam : ∀ ps body,
  Forall (λ p, P p.1) ps → P body → P (EXPR_LAMBDA ps body).
Hypothesis Hcall : ∀ f args, P f → Forall P args → P (EXPR_CALL f args).
Hypothesis Hstruct : ∀ fs, Forall (λ p, P p.1) fs → P (EXPR_STRUCT fs).
Hypothesis Hunion : ∀ fs, Forall (λ p, P p.1) fs → P (EXPR_UNION fs).
Hypothesis Hpack : ∀ ty asg,
  P ty → Forall (λ p, P p.2) asg → P (EXPR_PACK ty asg).
Hypothesis Hmember : ∀ e f, P e → P (EXPR_MEMBER e f).
Hypothesis Hptr : ∀ e, P e → P (EXPR_POINTER e).
Hypothesis Href : ∀ e, P e → P (EXPR_REFERENCE e).
Hypothesis Hderef : ∀ e, P e → P (EXPR_DEREFERENCE e).
Hypothesis Hstmt : ∀ s, Q s → P (EXPR_STATEMENT s).
Hypothesis Hempty : Q STATEMENT_EMPTY.
Hypothesis Hsexpr : ∀ e, P e → Q (STATEMENT_EXPR e).
Hypothesis Hreturn : ∀ e, P e → Q (STATEMENT_RETURN e).
Hypothesis Hblock : ∀ b, Forall Q b → Q (STATEMENT_BLOCK b).
Hypothesis Hdecl : ∀ ty x init,
  P ty → from_option P True init → Q (STATEMENT_DECL ty x init).
Hypothesis Hsite : ∀ ifs els,
  Forall (λ p, P p.1 ∧ Forall Q p.2) ifs → Forall Q els →
  Q (STATEMENT_IFTHENELSE ifs els).

Fixpoint Expr_nested_ind (e : Expr) : P e :=
  let on_fst {B} :=
    fix go (l : list (Expr * B)) : Forall (λ p, P p.1) l :=
      match l with
      | [] => List.Forall_nil _
      | p :: l' => List.Forall_cons _ _ _ (Expr_nested_ind p.1) (go l')
      end in
  match e with
  | EXPR_LITERAL l => Hlit l
  | EXPR_IDENT s => Hident s
  | EXPR_BIN_OP op a b =>
      Hbin op a b (Expr_nested_ind a) (Expr_nested_ind b)
  | EXPR_IFTHENELSE a b c =>
      Hite a b c (Expr_nested_ind a) (Expr_nested_ind b) (Expr_nested_ind c)
  | EXPR_FUNC_TYPE ret ps => Hfunc ret ps (Expr_nested_ind ret) (on_fst ps)
  | EXPR_LAMBDA ps body => Hlam ps body (on_fst ps) (Expr_nested_ind body)
  | EXPR_CALL f args =>
      Hcall f args (Expr_nested_ind f)
        ((fix go (l : list Expr) : Forall P l :=
            match l with
            | [] => List.Forall_nil _
            | x :: l' => List.Forall_cons _ _ _ (Expr_nested_ind x) (go l')
            end) args)
  | EXPR_STRUCT fs => Hstruct fs (on_fst fs)
  | EXPR_UNION fs => Hunion fs (on_fst fs)
  | EXPR_PACK ty asg =>
      Hpack ty asg (Expr_nested_ind ty)
        ((fix go (l : list (symbol * Expr)) : Forall (λ p, P p.2) l :=
            match l with
            | [] => List.Forall_nil _
            | p :: l' => List.Forall_cons _ _ _ (Expr_nested_ind p.2) (go l')
            end) asg)
  | EXPR_MEMBER e f => Hmember e f (Expr_nested_ind e)
  | EXPR_POINTER e => Hptr e (Expr_nested_ind e)
  | EXPR_REFERENCE e => Href e (Expr_nested_ind e)
  | EXPR_DEREFERENCE e => Hderef e (Expr_nested_ind e)
  | EXPR_STATEMENT s => Hstmt s (Statement_nested_ind s)
  end
with Statement_nested_ind (s : Statement) : Q s :=
  let on_block :=
    fix go (l : list Statement) : Forall Q l :=
      match l with
      | [] => List.Forall_nil _
      | x :: l' => List.Forall_cons _ _ _ (Statement_nested_ind x) (go l')
      end in
  match s with
  | STATEMENT_EMPTY => Hempty
  | STATEMENT_EXPR e => Hsexpr e (Expr_nested_ind e)
  | STATEMENT_RETURN e => Hreturn e (Expr_nested_ind e)
  | STATEMENT_BLOCK b => Hblock b (on_block b)
  | STATEMENT_DECL ty x init =>
      Hdecl ty x init (Expr_nested_ind ty)
        (match init as o return from_option P True o with
         | Some e0 => Expr_nested_ind e0
         | None => I
         end)
  | STATEMENT_IFTHENELSE ifs els =>
      Hsite ifs els
        ((fix go (l : list (Expr * list Statement))
            : Forall (λ p, P p.1 ∧ Forall Q p.2) l :=
            match l with
            | [] => List.Forall_nil _
            | p :: l' =>
                List.Forall_cons _ _ _
                  (conj (Expr_nested_ind p.1) (on_block p.2)) (go l')
            end) ifs)
        (on_block els)
  end.
End AstInd.

(** ** Nesting depth of a term

    [expr_subst] re-traverses sub-terms that it has already rewritten, so
    its embedding below is driven by a recursion budget; the nesting depth
    is the measure that says how much budget a term needs. *)

Definition max_of {A} (h : A → nat) (l : list A) : nat :=
  foldr (λ x acc, h x `max` acc) 0 l.

Fixpoint expr_height (e : Expr) : nat :=
  match e with
  | EXPR_LITERAL _ | EXPR_IDENT _ => 0
  | EXPR_BIN_OP _ a b => S (expr_height a `max` expr_height b)
  | EXPR_IFTHENELSE a b c =>
      S (expr_height a `max` (expr_height b `max` expr_height c))
  | EXPR_FUNC_TYPE ret ps =>
      S (expr_height ret `max` max_of (λ p, expr_height p.1) ps)
  | EXPR_LAMBDA ps body =>
      S (max_of (λ p, expr_height p.1) ps `max` expr_height body)
  | EXPR_CALL f args => S (expr_height f `max` max_of expr_height args)
  | EXPR_STRUCT fs | EXPR_UNION fs => S (max_of (λ p, expr_height p.1) fs)
  | EXPR_PACK ty asg =>
      S (expr_height ty `max` max_of (λ p, expr_height p.2) asg)
  | EXPR_MEMBER e _ | EXPR_POINTER e | EXPR_REFERENCE e
  | EXPR_DEREFERENCE e => S (expr_height e)
  | EXPR_STATEMENT s => S (statement_height s)
  end
with statement_height (s : Statement) : nat :=
  match s with
  | STATEMENT_EMPTY => 0
  | STATEMENT_EXPR e | STATEMENT_RETURN e => S (expr_height e)
  | STATEMENT_BLOCK b => S (max_of statement_height b)
  | STATEMENT_DECL ty _ init =>
      S (expr_height ty `max`
         match init with Some e => expr_height e | None => 0 end)
  | STATEMENT_IFTHENELSE ifs els =>
      S (max_of (λ p, expr_height p.1 `max` max_of statement_height p.2) ifs
         `max` max_of statement_height els)
  end.

Definition block_height (b : Block) : nat := max_of statement_height b.

(** ** Structural equality *)

Definition literal_equal (x y : Literal) : bool :=
  match x, y with
  | LIT_TYPE, LIT_TYPE | LIT_VOID, LIT_VOID
  | LIT_U8, LIT_U8 | LIT_S8, LIT_S8
  | LIT_U16, LIT_U16 | LIT_S16, LIT_S16
  | LIT_U32, LIT_U32 | LIT_S32, LIT_S32
  | LIT_U64, LIT_U64 | LIT_S64, LIT_S64
  | LIT_BOOL, LIT_BOOL => true
  | LIT_INTEGRAL a, LIT_INTEGRAL b => N.eqb a b
  | LIT_BOOLEAN a, LIT_BOOLEAN b => Bool.eqb a b
  | _, _ => false
  end.

(** The body of the equality loops: [for (i = 0; i < x.len; i++)
    if (!same(x[i], y[i])) return false;], entered once the two lengths
    are known to agree. *)
Fixpoint pairwise {A B} (same : A → B → bool) (xs : list A) (ys : list B)
  : bool :=
  match xs, ys with
  | [], _ => true
  | x :: xs', y :: ys' => if same x y then pairwise same xs' ys' else false
  | _ :: _, [] => false
  end.

Definition option_symbol_eqb (a b : option symbol) : bool :=
  match a, b with
  | Some x, Some y => String.eqb x y
  | None, None => true
  | _, _ => false
  end.

Fixpoint expr_equal (x y : Expr) {struct x} : bool :=
  match x, y with
  | EXPR_LITERAL lx, EXPR_LITERAL ly => literal_equal lx ly
  | EXPR_IDENT sx, EXPR_IDENT sy => String.eqb sx sy
  | EXPR_BIN_OP opx x1 x2, EXPR_BIN_OP opy y1 y2 =>
      negb (bool_decide (opx = opy))
      && expr_equal x1 y1 && expr_equal x2 y2
  | EXPR_IFTHENELSE xp xt xe, EXPR_IFTHENELSE yp yt ye =>
      expr_equal xp yp && expr_equal xt yt && expr_equal xe ye
  | EXPR_FUNC_TYPE xret xps, EXPR_FUNC_TYPE yret yps =>
      if negb (expr_equal xret yret) || negb (length xps =? length yps)
      then false
      else pairwise (λ p q, expr_equal p.1 q.1
                            && option_symbol_eqb p.2 q.2) xps yps
  | EXPR_LAMBDA xps xbody, EXPR_LAMBDA yps ybody =>
      if negb (length xps =? length yps) then false
      else
        (* each iteration compares [x->lambda.param_types] with
           [y->lambda.param_types], that is, the first elements *)
        match xps, yps with
        | [], _ => expr_equal xbody ybody
        | (xt0, _) :: _, (yt0, _) :: _ =>
            if pairwise (λ p q, expr_equal xt0 yt0 && String.eqb p.2 q.2)
                 xps yps
            then expr_equal xbody ybody else false
        | _ :: _, [] => false
        end
  | EXPR_CALL xf xargs, EXPR_CALL yf yargs =>
      if negb (expr_equal xf yf) || negb (length xargs =? length yargs)
      then false
      else pairwise expr_equal xargs yargs
  | EXPR_STRUCT xfs, EXPR_STRUCT yfs
  | EXPR_UNION xfs, EXPR_UNION yfs =>
      if negb (length xfs =? length yfs) then false
      else pairwise (λ p q, expr_equal p.1 q.1 && String.eqb p.2 q.2)
             xfs yfs
  | EXPR_PACK xty xasg, EXPR_PACK yty yasg =>
      if negb (expr_equal xty yty) || negb (length xasg =? length yasg)
      then false
      else pairwise (λ p q, String.eqb p.1 q.1 && expr_equal p.2 q.2)
             xasg yasg
  | EXPR_MEMBER xr xf, EXPR_MEMBER yr yf =>
      if negb (expr_equal xr yr) || negb (String.eqb xf yf) then false
      else true
  | EXPR_POINTER xp, EXPR_POINTER yp
  | EXPR_REFERENCE xp, EXPR_REFERENCE yp
  | EXPR_DEREFERENCE xp, EXPR_DEREFERENCE yp => expr_equal xp yp
  | EXPR_STATEMENT _, EXPR_STATEMENT _ => (* TODO *) false
  | _, _ => false
  end.

(** ** Deep copy *)

Definition literal_copy (x : Literal) : Literal := x.

Fixpoint expr_copy (x : Expr) : Expr :=
  match x with
  | EXPR_LITERAL l => EXPR_LITERAL (literal_copy l)
  | EXPR_IDENT s => EXPR_IDENT s
  | EXPR_BIN_OP op a b => EXPR_BIN_OP op (expr_copy a) (expr_copy b)
  | EXPR_IFTHENELSE a b c =>
      EXPR_IFTHENELSE (expr_copy a) (expr_copy b) (expr_copy c)
  | EXPR_FUNC_TYPE ret ps =>
      EXPR_FUNC_TYPE (expr_copy ret) (map (λ p, (expr_copy p.1, p.2)) ps)
  | EXPR_LAMBDA ps body =>
      EXPR_LAMBDA (map (λ p, (expr_copy p.1, p.2)) ps) (expr_copy body)
  | EXPR_CALL f args => EXPR_CALL (expr_copy f) (map expr_copy args)
  | EXPR_STRUCT fs => EXPR_STRUCT (map (λ p, (expr_copy p.1, p.2)) fs)
  | EXPR_UNION fs => EXPR_UNION (map (λ p, (expr_copy p.1, p.2)) fs)
  | EXPR_PACK ty asg =>
      EXPR_PACK (expr_copy ty) (map (λ p, (p.1, expr_copy p.2)) asg)
  | EXPR_MEMBER e f => EXPR_MEMBER (expr_copy e) f
  | EXPR_POINTER e => EXPR_POINTER (expr_copy e)
  | EXPR_REFERENCE e => EXPR_REFERENCE (expr_copy e)
  | EXPR_DEREFERENCE e => EXPR_DEREFERENCE (expr_copy e)
  | EXPR_STATEMENT s => EXPR_STATEMENT (statement_copy s)
  end
with statement_copy (statement : Statement) : Statement :=
  match statement with
  | STATEMENT_EMPTY => STATEMENT_EMPTY
  | STATEMENT_EXPR e => STATEMENT_EXPR (expr_copy e)
  | STATEMENT_RETURN e => STATEMENT_RETURN (expr_copy e)
  | STATEMENT_BLOCK b => STATEMENT_BLOCK (map statement_copy b)
  | STATEMENT_DECL ty x init =>
      STATEMENT_DECL (expr_copy ty) x
        (match init with Some e => Some (expr_copy e) | None => None end)
  | STATEMENT_IFTHENELSE ifs els =>
      STATEMENT_IFTHENELSE
        (map (λ p, (expr_copy p.1, map statement_copy p.2)) ifs)
        (map statement_copy els)
  end.

Definition block_copy (block : Block) : Block := map statement_copy block.

(** ** Free-variable analysis

    The C functions write their result through an out-parameter and use a
    scratch set [free_vars_temp]; here the sets are values and every
    assignment to [*free_vars] is a [let]. *)

Definition delete_named (set : SymbolSet) (x : option symbol) : SymbolSet :=
  match x with
  | Some sym => symbol_set_delete set sym
  | None => set
  end.

(** [for (i ...) { temp = fv(types[i]); for (j < i) delete names[j] from
    temp; free_vars ∪= temp; }]: [seen] holds the entries before index
    [i]. *)
Fixpoint scoped_free_vars {A} (fv : A → SymbolSet)
    (name_of : A → option symbol) (seen entries : list A)
    (free_vars : SymbolSet) : SymbolSet :=
  match entries with
  | [] => free_vars
  | p :: rest =>
      let free_vars_temp :=
        foldl (λ temp q, delete_named temp (name_of q)) (fv p) seen in
      scoped_free_vars fv name_of (seen ++ [p]) rest
        (symbol_set_union free_vars free_vars_temp)
  end.

(** The loop of [block_free_vars]: iteration [i] visits statement
    [num_statements - i - 1], so the last statement is visited first and
    the head of the list last. *)
Fixpoint block_free_vars_with (statement_fv : Statement → SymbolSet)
    (block : Block) : SymbolSet :=
  match block with
  | [] => symbol_set_empty
  | statement :: later =>
      let free_vars := block_free_vars_with statement_fv later in
      let free_vars :=
        match statement with
        | STATEMENT_DECL _ name _ => symbol_set_delete free_vars name
        | _ => free_vars
        end in
      symbol_set_union free_vars (statement_fv statement)
  end.

Fixpoint expr_free_vars (expr : Expr) : SymbolSet :=
  match expr with
  | EXPR_LITERAL _ => symbol_set_empty
  | EXPR_IDENT s => symbol_set_add symbol_set_empty s
  | EXPR_BIN_OP _ a b =>
      symbol_set_union (expr_free_vars a) (expr_free_vars b)
  | EXPR_IFTHENELSE a b c =>
      symbol_set_union
        (symbol_set_union (expr_free_vars a) (expr_free_vars b))
        (expr_free_vars c)
  | EXPR_FUNC_TYPE ret ps =>
      let free_vars := expr_free_vars ret in
      let free_vars := foldl (λ fv p, delete_named fv p.2) free_vars ps in
      scoped_free_vars (λ p, expr_free_vars p.1) snd [] ps free_vars
  | EXPR_LAMBDA ps body =>
      let free_vars := expr_free_vars body in
      let free_vars :=
        foldl (λ fv p, symbol_set_delete fv p.2) free_vars ps in
      scoped_free_vars (λ p, expr_free_vars p.1) (λ p, Some p.2) [] ps
        free_vars
  | EXPR_CALL f args =>
      foldl (λ fv a, symbol_set_union fv (expr_free_vars a))
        (expr_free_vars f) args
  | EXPR_STRUCT fs =>
      scoped_free_vars (λ p, expr_free_vars p.1) (λ p, Some p.2) [] fs
        symbol_set_empty
  | EXPR_UNION fs =>
      foldl (λ fv p, symbol_set_union fv (expr_free_vars p.1))
        symbol_set_empty fs
  | EXPR_PACK ty asg =>
      foldl (λ fv p, symbol_set_union fv (expr_free_vars p.2))
        (expr_free_vars ty) asg
  | EXPR_MEMBER e _ => expr_free_vars e
  | EXPR_POINTER e | EXPR_REFERENCE e | EXPR_DEREFERENCE e =>
      expr_free_vars e
  | EXPR_STATEMENT s => statement_free_vars s
  end
with statement_free_vars (statement : Statement) : SymbolSet :=
  match statement with
  | STATEMENT_EMPTY => symbol_set_empty
  | STATEMENT_EXPR e | STATEMENT_RETURN e => expr_free_vars e
  | STATEMENT_BLOCK b => block_free_vars_with statement_free_vars b
  | STATEMENT_DECL ty _ init =>
      let free_vars := expr_free_vars ty in
      match init with
      | Some e => symbol_set_union free_vars (expr_free_vars e)
      | None => free_vars
      end
  | STATEMENT_IFTHENELSE ifs els =>
      let free_vars := block_free_vars_with statement_free_vars els in
      foldl (λ free_vars p,
               let free_vars_temp := expr_free_vars p.1 in
               let free_vars := symbol_set_union free_vars free_vars_temp in
               (* [block_free_vars(&thens[i], free_vars)] starts by
                  resetting [*free_vars] *)
               let free_vars := block_free_vars_with statement_free_vars p.2 in
               symbol_set_union free_vars free_vars_temp)
        free_vars ifs
  end.

Definition block_free_vars (block : Block) : SymbolSet :=
  block_free_vars_with statement_free_vars block.

(** ** Substitution

    The C functions mutate the term in place, thread the context (for
    [symbol_gensym]) and return a [bool].  A computation of type [Subst A]
    takes the context and yields a value together with the new context;
    substituting into a node yields the flag that the C function returns
    and the node as it is left behind, also when the flag is [false].
    [None] only arises when the recursion budget of [expr_subst] is used
    up. *)

Definition Subst (A : Type) : Type := Context → option (A * Context).

Definition subst_ret {A} (a : A) : Subst A := λ context, Some (a, context).

Definition subst_bind {A B} (m : Subst A) (k : A → Subst B) : Subst B :=
  λ context,
    match m context with
    | Some (a, context') => k a context'
    | None => None
    end.

Definition out_of_budget {A} : Subst A := λ _, None.

Definition gensym (base : symbol) : Subst symbol :=
  λ context, Some (symbol_gensym context base).

Notation "'let*' x := m 'in' k" := (subst_bind m (λ x, k))
  (at level 10, x pattern, m at level 100, k at level 200, only parsing).

(** [for (i ...) if (!subst(&xs[i])) return false; return true;] *)
Fixpoint subst_each {A} (subst : A → Subst (bool * A)) (xs : list A)
  : Subst (bool * list A) :=
  match xs with
  | [] => subst_ret (true, [])
  | x :: rest =>
      let* (ok, x') := subst x in
      if negb ok then subst_ret (false, x' :: rest) else
      let* (ok, rest') := subst_each subst rest in
      subst_ret (ok, x' :: rest')
  end.

(** [for (j = i + 1; j < bound; j++) if (!subst(&types[i])) goto end;]:
    the same slot is rewritten on every iteration. *)
Fixpoint subst_repeat (count : nat) (subst : Expr → Subst (bool * Expr))
    (slot : Expr) : Subst (bool * Expr) :=
  match count with
  | 0 => subst_ret (true, slot)
  | S count' =>
      let* (ok, slot') := subst slot in
      if negb ok then subst_ret (false, slot')
      else subst_repeat count' subst slot'
  end.

(** The loop shared by [expr_struct_subst] and [expr_pack_subst]
    ("use the struct algorithm"): substitute into the entry, stop with
    success at a field named like the target, stop with failure at a
    field whose name is free in the replacement. *)
Fixpoint record_fields_subst {A} (subst_entry : A → Subst (bool * A))
    (field_name : A → symbol) (name : symbol) (free_vars : SymbolSet)
    (fields : list A) : Subst (bool * list A) :=
  match fields with
  | [] => subst_ret (true, [])
  | field :: rest =>
      let* (ok, field') := subst_entry field in
      if negb ok then subst_ret (false, field' :: rest) else
      let old_field_name := field_name field in
      if String.eqb old_field_name name
      then subst_ret (true, field' :: rest) else
      if symbol_set_contains free_vars old_field_name
      then subst_ret (false, field' :: rest) else
      let* (ok, rest') :=
        record_fields_subst subst_entry field_name name free_vars rest in
      subst_ret (ok, field' :: rest')
  end.

(** The loop shared by [expr_func_type_subst] and [expr_lambda_subst],
    followed by the final substitution into the return type or body
    ([tail]).  [as_symbol] reads a parameter name ([None] for a [NULL]
    name, which only function types check for) and [of_symbol] stores
    one.  [i] is the loop index and [bound] the upper bound of the inner
    renaming loop, which rewrites [param_types[i]] on each of its
    iterations. *)
Section BinderLoop.
Context {N : Type} (as_symbol : N → option symbol) (of_symbol : symbol → N).
Context (subst : Expr → symbol → Expr → Subst (bool * Expr)).
Context (name : symbol) (replacement : Expr) (free_vars : SymbolSet).
Context (bound : nat).

Fixpoint params_subst (i : nat) (params : list (Expr * N)) (tail : Expr)
  : Subst (bool * (list (Expr * N) * Expr)) :=
  match params with
  | [] =>
      let* (ok, tail') := subst tail name replacement in
      subst_ret (ok, ([], tail'))
  | (param_type, param_name) :: rest =>
      let* (ok, param_type') := subst param_type name replacement in
      if negb ok
      then subst_ret (false, ((param_type', param_name) :: rest, tail))
      else
      let continue param_type param_name tail :=
        let* (ok, (rest', tail')) := params_subst (S i) rest tail in
        subst_ret (ok, ((param_type, param_name) :: rest', tail')) in
      match as_symbol param_name with
      | None => continue param_type' param_name tail
      | Some old_param_name =>
          if String.eqb old_param_name name
          then subst_ret (true, ((param_type', param_name) :: rest, tail))
          else
          if symbol_set_contains free_vars old_param_name then
            let* new_param_name := gensym old_param_name in
            let new_replacement := EXPR_IDENT new_param_name in
            let param_name' := of_symbol new_param_name in
            let* (ok, param_type'') :=
              subst_repeat (bound - (i + 1))
                (λ e, subst e old_param_name new_replacement)
                param_type' in
            if negb ok
            then subst_ret
                   (false, ((param_type'', param_name') :: rest, tail))
            else
            let* (ok, tail') := subst tail old_param_name new_replacement in
            if negb ok
            then subst_ret
                   (false, ((param_type'', param_name') :: rest, tail'))
            else continue param_type'' param_name' tail'
          else continue param_type' param_name tail
      end
  end.
End BinderLoop.

Section Subst.
(** [expr_lambda_subst] bounds its renaming loop by
    [expr->func_type.num_params] although the node is a lambda.  The
    declaration of [Expr] that this code was compiled against is not
    part of the sources, so the value found through the [func_type]
    view of a lambda node is a parameter of the embedding, given as a
    function of the lambda's payload. *)
Variable lambda_func_type_num_params : list (Expr * symbol) → Expr → nat.

Fixpoint expr_subst (budget : nat) (expr : Expr) (name : symbol)
    (replacement : Expr) {struct budget} : Subst (bool * Expr) :=
  match budget with
  | 0 => out_of_budget
  | S budget =>
    let subst e := expr_subst budget e name replacement in
    match expr with
    | EXPR_LITERAL _ => subst_ret (true, expr)
    | EXPR_IDENT _ => subst_ret (true, expr_copy replacement)
    | EXPR_BIN_OP op expr1 expr2 =>
        let* (ok, expr1') := subst expr1 in
        if negb ok then subst_ret (false, EXPR_BIN_OP op expr1' expr2) else
        let* (ok, expr2') := subst expr2 in
        subst_ret (ok, EXPR_BIN_OP op expr1' expr2')
    | EXPR_IFTHENELSE predicate then_ else_ =>
        let* (ok, predicate') := subst predicate in
        if negb ok
        then subst_ret (false, EXPR_IFTHENELSE predicate' then_ else_) else
        let* (ok, then_') := subst then_ in
        if negb ok
        then subst_ret (false, EXPR_IFTHENELSE predicate' then_' else_) else
        let* (ok, else_') := subst else_ in
        subst_ret (ok, EXPR_IFTHENELSE predicate' then_' else_')
    | EXPR_FUNC_TYPE ret_type params =>
        (* expr_func_type_subst *)
        let free_vars := expr_free_vars replacement in
        let* (ok, (params', ret_type')) :=
          params_subst id Some (expr_subst budget) name replacement
            free_vars (length params) 0 params ret_type in
        subst_ret (ok, EXPR_FUNC_TYPE ret_type' params')
    | EXPR_LAMBDA params body =>
        (* expr_lambda_subst *)
        let free_vars := expr_free_vars replacement in
        let* (ok, (params', body')) :=
          params_subst Some id (expr_subst budget) name replacement
            free_vars (lambda_func_type_num_params params body) 0
            params body in
        subst_ret (ok, EXPR_LAMBDA params' body')
    | EXPR_CALL func args =>
        let* (ok, func') := subst func in
        if negb ok then subst_ret (false, EXPR_CALL func' args) else
        let* (ok, args') := subst_each subst args in
        subst_ret (ok, EXPR_CALL func' args')
    | EXPR_STRUCT fields =>
        (* expr_struct_subst *)
        let free_vars := expr_free_vars replacement in
        let* (ok, fields') :=
          record_fields_subst
            (λ field, let* (ok, type') := subst field.1 in
                      subst_ret (ok, (type', field.2)))
            snd name free_vars fields in
        subst_ret (ok, EXPR_STRUCT fields')
    | EXPR_UNION fields =>
        let* (ok, fields') :=
          subst_each
            (λ field, let* (ok, type') := subst field.1 in
                      subst_ret (ok, (type', field.2)))
            fields in
        subst_ret (ok, EXPR_UNION fields')
    | EXPR_PACK type assigns =>
        (* expr_pack_subst *)
        let free_vars := expr_free_vars replacement in
        let* (ok, assigns') :=
          record_fields_subst
            (λ assign, let* (ok, value') := subst assign.2 in
                       subst_ret (ok, (assign.1, value')))
            fst name free_vars assigns in
        subst_ret (ok, EXPR_PACK type assigns')
    | EXPR_MEMBER record field =>
        let* (ok, record') := subst record in
        subst_ret (ok, EXPR_MEMBER record' field)
    | EXPR_POINTER pointer =>
        let* (ok, pointer') := subst pointer in
        subst_ret (ok, EXPR_POINTER pointer')
    | EXPR_REFERENCE pointer =>
        let* (ok, pointer') := subst pointer in
        subst_ret (ok, EXPR_REFERENCE pointer')
    | EXPR_DEREFERENCE pointer =>
        let* (ok, pointer') := subst pointer in
        subst_ret (ok, EXPR_DEREFERENCE pointer')
    | EXPR_STATEMENT statement =>
        let* (ok, statement') :=
          statement_subst budget statement name replacement in
        subst_ret (ok, EXPR_STATEMENT statement')
    end
  end
with statement_subst (budget : nat) (statement : Statement) (name : symbol)
    (replacement : Expr) {struct budget} : Subst (bool * Statement) :=
  match budget with
  | 0 => out_of_budget
  | S budget =>
    let subst e := expr_subst budget e name replacement in
    (* block_subst *)
    let block_subst block :=
      subst_each (λ s, statement_subst budget s name replacement) block in
    match statement with
    | STATEMENT_EMPTY => subst_ret (true, statement)
    | STATEMENT_EXPR expr =>
        let* (ok, expr') := subst expr in
        subst_ret (ok, STATEMENT_EXPR expr')
    | STATEMENT_RETURN expr =>
        let* (ok, expr') := subst expr in
        subst_ret (ok, STATEMENT_RETURN expr')
    | STATEMENT_BLOCK block =>
        let* (ok, block') := block_subst block in
        subst_ret (ok, STATEMENT_BLOCK block')
    | STATEMENT_DECL type decl_name initial_value =>
        let* (ok, type') := subst type in
        if negb ok
        then subst_ret (false, STATEMENT_DECL type' decl_name initial_value)
        else
        match initial_value with
        | Some value =>
            let* (ok, value') := subst value in
            subst_ret (ok, STATEMENT_DECL type' decl_name (Some value'))
        | None => subst_ret (true, STATEMENT_DECL type' decl_name None)
        end
    | STATEMENT_IFTHENELSE ifs else_ =>
        let* (ok, ifs') :=
          subst_each
            (λ branch,
               let* (ok, cond') := subst branch.1 in
               if negb ok then subst_ret (false, (cond', branch.2)) else
               let* (ok, then') := block_subst branch.2 in
               subst_ret (ok, (cond', then')))
            ifs in
        if negb ok then subst_ret (false, STATEMENT_IFTHENELSE ifs' else_)
        else
        let* (ok, else_') := block_subst else_ in
        subst_ret (ok, STATEMENT_IFTHENELSE ifs' else_')
    end
  end.

(** [block_subst] substitutes into every statement of the block, in
    order, and stops at the first failure. *)
Definition block_subst (budget : nat) (block : Block) (name : symbol)
    (replacement : Expr) : Subst (bool * Block) :=
  subst_each (λ s, statement_subst budget s name replacement) block.
End Subst.

(** ** Syntactic classes of terms *)

(** [expr_all p e]: every expression node of [e], including those inside
    statements, satisfies [p]. *)
Fixpoint expr_all (p : Expr → bool) (e : Expr) : bool :=
  p e &&
  match e with
  | EXPR_LITERAL _ | EXPR_IDENT _ => true
  | EXPR_BIN_OP _ a b => expr_all p a && expr_all p b
  | EXPR_IFTHENELSE a b c => expr_all p a && (expr_all p b && expr_all p c)
  | EXPR_FUNC_TYPE ret ps =>
      expr_all p ret && forallb (λ q, expr_all p q.1) ps
  | EXPR_LAMBDA ps body =>
      forallb (λ q, expr_all p q.1) ps && expr_all p body
  | EXPR_CALL f args => expr_all p f && forallb (expr_all p) args
  | EXPR_STRUCT fs | EXPR_UNION fs => forallb (λ q, expr_all p q.1) fs
  | EXPR_PACK ty asg => expr_all p ty && forallb (λ q, expr_all p q.2) asg
  | EXPR_MEMBER e _ | EXPR_POINTER e | EXPR_REFERENCE e
  | EXPR_DEREFERENCE e => expr_all p e
  | EXPR_STATEMENT s => statement_all p s
  end
with statement_all (p : Expr → bool) (s : Statement) : bool :=
  match s with
  | STATEMENT_EMPTY => true
  | STATEMENT_EXPR e | STATEMENT_RETURN e => expr_all p e
  | STATEMENT_BLOCK b => forallb (statement_all p) b
  | STATEMENT_DECL ty _ init =>
      expr_all p ty &&
      match init with Some e => expr_all p e | None => true end
  | STATEMENT_IFTHENELSE ifs els =>
      forallb (λ q, expr_all p q.1 && forallb (statement_all p) q.2) ifs
      && forallb (statement_all p) els
  end.

Definition is_record (node : Expr) : bool :=
  match node with
  | EXPR_STRUCT _ | EXPR_PACK _ _ => true
  | _ => false
  end.

(** No [Struct] and no [Pack] sub-term. *)
Definition no_record (e : Expr) : bool :=
  expr_all (λ node, negb (is_record node)) e.

(** Neither a [BinOp] nor a statement-wrapped sub-term. *)
Definition is_bin_op_or_statement (node : Expr) : bool :=
  match node with
  | EXPR_BIN_OP _ _ _ | EXPR_STATEMENT _ => true
  | _ => false
  end.

Definition no_bin_op_no_statement (e : Expr) : bool :=
  expr_all (λ node, negb (is_bin_op_or_statement node)) e.

(** The field names of a [Struct] or [Pack] node. *)
Definition node_field_names (node : Expr) : list symbol :=
  match node with
  | EXPR_STRUCT fs => fs.*2
  | EXPR_PACK _ asg => asg.*1
  | _ => []
  end.

(** Every record field name anywhere in [e] satisfies [φ]. *)
Definition fields_all (φ : symbol → bool) (e : Expr) : bool :=
  expr_all (λ node, forallb φ (node_field_names node)) e.

Definition interned_in (X : gset string) (sym : symbol) : bool :=
  bool_decide (sym ∈ X).

Definition not_free_in (replacement : Expr) (sym : symbol) : bool :=
  negb (symbol_set_contains (expr_free_vars replacement) sym).

(** ** What a substitution leaves alone

    The traversal of [expr_subst] goes through parameters, fields and
    children from left to right.  It does not go past a parameter or a
    field named like the target (it returns [ok] there: the target is
    shadowed), nor past a record field whose name is free in the
    replacement (it fails there).  [untouched name r e] holds when, on the
    part of [e] that the traversal for target [name] and replacement [r]
    visits, there is no identifier and no parameter whose name is free in
    [r].  The type component of a [Pack] is never visited. *)

(** The loop of [expr_func_type_subst] and [expr_lambda_subst]. *)
Fixpoint params_untouched {A} (type_untouched : A → bool)
    (name_of : A → option symbol) (name : symbol) (free_vars : SymbolSet)
    (params : list A) (tail_untouched : bool) : bool :=
  match params with
  | [] => tail_untouched
  | param :: rest =>
      type_untouched param &&
      match name_of param with
      | None =>
          params_untouched type_untouched name_of name free_vars rest
            tail_untouched
      | Some old_param_name =>
          String.eqb old_param_name name ||
          negb (symbol_set_contains free_vars old_param_name) &&
          params_untouched type_untouched name_of name free_vars rest
            tail_untouched
      end
  end.

(** The loop of [expr_struct_subst] and [expr_pack_subst]. *)
Fixpoint fields_untouched {A} (entry_untouched : A → bool)
    (field_name : A → symbol) (name : symbol) (free_vars : SymbolSet)
    (fields : list A) : bool :=
  match fields with
  | [] => true
  | field :: rest =>
      entry_untouched field &&
      (String.eqb (field_name field) name ||
       symbol_set_contains free_vars (field_name field) ||
       fields_untouched entry_untouched field_name name free_vars rest)
  end.

Fixpoint untouched (name : symbol) (r : Expr) (e : Expr) : bool :=
  match e with
  | EXPR_LITERAL _ => true
  | EXPR_IDENT _ => false
  | EXPR_BIN_OP _ a b => untouched name r a && untouched name r b
  | EXPR_IFTHENELSE a b c =>
      untouched name r a && (untouched name r b && untouched name r c)
  | EXPR_FUNC_TYPE ret ps =>
      params_untouched (λ p, untouched name r p.1) snd name
        (expr_free_vars r) ps (untouched name r ret)
  | EXPR_LAMBDA ps body =>
      params_untouched (λ p, untouched name r p.1) (λ p, Some p.2) name
        (expr_free_vars r) ps (untouched name r body)
  | EXPR_CALL f args =>
      untouched name r f && forallb (untouched name r) args
  | EXPR_STRUCT fs =>
      fields_untouched (λ p, untouched name r p.1) snd name
        (expr_free_vars r) fs
  | EXPR_UNION fs => forallb (λ p, untouched name r p.1) fs
  | EXPR_PACK _ asg =>
      fields_untouched (λ p, untouched name r p.2) fst name
        (expr_free_vars r) asg
  | EXPR_MEMBER e _ | EXPR_POINTER e | EXPR_REFERENCE e
  | EXPR_DEREFERENCE e => untouched name r e
  | EXPR_STATEMENT s => untouched_statement name r s
  end
with untouched_statement (name : symbol) (r : Expr) (s : Statement) : bool :=
  match s with
  | STATEMENT_EMPTY => true
  | STATEMENT_EXPR e | STATEMENT_RETURN e => untouched name r e
  | STATEMENT_BLOCK b => forallb (untouched_statement name r) b
  | STATEMENT_DECL ty _ init =>
      untouched name r ty &&
      match init with Some e => untouched name r e | None => true end
  | STATEMENT_IFTHENELSE ifs els =>
      forallb (λ p, untouched name r p.1 &&
                    forallb (untouched_statement name r) p.2) ifs
      && forallb (untouched_statement name r) els
  end.

(** ** The block rule in the words of the specification *)

(** "Starting from ∅, for each statement from last to first, if the
    statement is a [Decl] with name [d] then delete [d] from the
    accumulated set, then union in the statement's own free vars." *)
Definition block_free_vars_spec (block : Block) : SymbolSet :=
  foldl (λ acc statement,
           (match statement with
            | STATEMENT_DECL _ d _ => acc ∖ {[ d ]}
            | _ => acc
            end) ∪ statement_free_vars statement)
    ∅ (reverse block).

(** ** Terms used in the examples *)

Definition sym (text : string) : symbol := text.

Definition u8 : Expr := EXPR_LITERAL LIT_U8.
Definition num (n : N) : Expr := EXPR_LITERAL (LIT_INTEGRAL n).
Definition var (text : string) : Expr := EXPR_IDENT (sym text).

(** [1 + 2] *)
Definition one_plus_two : Expr := EXPR_BIN_OP BIN_OP_ADD (num 1) (num 2).

(** [{ u8 x = y; x + z; }] *)
Definition block_scoping_example : Block :=
  [ STATEMENT_DECL u8 (sym "x") (Some (var "y"));
    STATEMENT_EXPR (EXPR_BIN_OP BIN_OP_ADD (var "x") (var "z")) ].

(** [if (c) { t; } else { e; }] *)
Definition if_else_example : Statement :=
  STATEMENT_IFTHENELSE [ (var "c", [STATEMENT_EXPR (var "t")]) ]
    [STATEMENT_EXPR (var "e")].

(** [{ u8 x; x; }] *)
Definition redeclaring_block : Block :=
  [ STATEMENT_DECL u8 (sym "x") None; STATEMENT_EXPR (var "x") ].

(** [{ u8 y; x; }] *)
Definition capturing_block : Block :=
  [ STATEMENT_DECL u8 (sym "y") None; STATEMENT_EXPR (var "x") ].

(** A context in which the identifiers of the examples are interned. *)
Definition example_context : Context :=
  {| interns := {[ sym "x"; sym "y"; sym "z"; sym "q"; sym "r"; sym "t";
                   sym "f"; sym "c"; sym "e" ]} |}.

(** The reading of [expr->func_type.num_params] on a lambda node under
    which the two views of the union share the [num_params] slot. *)
Definition shared_num_params (params : list (Expr * symbol)) (body : Expr)
  : nat := length params.

(** ** Specifications of substitution computations *)

(** [yields_from X m Q]: started in a context in which the symbols [X] are
    interned, [m] returns, its value satisfies [Q], and the symbols
    interned before are still interned afterwards. *)
Definition yields_from {B} (X : gset string) (m : Subst B) (Q : B → Prop)
  : Prop :=
  ∀ context, X ⊆ interns context →
    ∃ b context', m context = Some (b, context') ∧ Q b ∧
                  interns context ⊆ interns context'.

(** A computation that only ever adds to the interned symbols. *)
Definition grows {A} (m : Subst A) : Prop :=
  ∀ context a context',
    m context = Some (a, context') → interns context ⊆ interns context'.

(** What the specifications below measure on a piece of syntax: its
    nesting depth and whether all its record field names satisfy a
    predicate. *)
Record Shape (A : Type) := {
  height : A → nat;
  fields_ok : (symbol → bool) → A → bool;
}.
Arguments height {A} _ _.
Arguments fields_ok {A} _ _ _.

Definition expr_shape : Shape Expr :=
  {| height := expr_height; fields_ok := fields_all |}.

Definition statement_shape : Shape Statement :=
  {| height := statement_height;
     fields_ok φ :=
       statement_all (λ node, forallb φ (node_field_names node)) |}.

Definition list_shape {A} (S : Shape A) : Shape (list A) :=
  {| height := max_of (height S);
     fields_ok φ := forallb (fields_ok S φ) |}.

Definition pair_shape {A B} (S : Shape A) (T : Shape B) : Shape (A * B) :=
  {| height p := height S p.1 `max` height T p.2;
     fields_ok φ p := fields_ok S φ p.1 && fields_ok T φ p.2 |}.

(** A parameter, or a union field: only the type counts. *)
Definition typed_shape {N} : Shape (Expr * N) :=
  {| height p := expr_height p.1; fields_ok φ p := fields_all φ p.1 |}.

(** A struct field: its name is a record field name. *)
Definition field_shape : Shape (Expr * symbol) :=
  {| height p := expr_height p.1;
     fields_ok φ p := φ p.2 && fields_all φ p.1 |}.

(** A pack assignment: its name is a record field name. *)
Definition assign_shape : Shape (symbol * Expr) :=
  {| height p := expr_height p.2;
     fields_ok φ p := φ p.1 && fields_all φ p.2 |}.

Definition block_shape : Shape Block := list_shape statement_shape.

Definition branch_shape : Shape (Expr * Block) :=
  pair_shape expr_shape block_shape.

(** The specification of substituting [r] into [x], for the result
    [(ok, x')]: [x'] is at most [height r] deeper than [x]; a predicate
    that holds of every record field name of [x] and of [r] holds of those
    of [x']; and the substitution succeeds when the record field names of
    [x] and [r] are interned (in [X]) and no record field name of [x] is
    free in [r]. *)
Definition subst_post {A} (S : Shape A) (X : gset string) (x : A) (r : Expr)
    (res : bool * A) : Prop :=
  height S res.2 ≤ height S x + expr_height r ∧
  (∀ φ, fields_ok S φ x = true → fields_all φ r = true →
        fields_ok S φ res.2 = true) ∧
  (fields_ok S (interned_in X) x = true →
   fields_all (interned_in X) r = true →
   fields_ok S (not_free_in r) x = true →
   res.1 = true).

Definition params_shape {N} : Shape (list (Expr * N) * Expr) :=
  pair_shape (list_shape typed_shape) expr_shape.

(** ** What substitution does to the parameter names of a binder

    [names_avoid F name before after] relates the parameter names of a
    function type or lambda before and after a substitution of [name] by
    a replacement with free variables [F]: up to the first parameter
    named [name], a name that is in [F] has been replaced by a symbol
    that is not, and any other name is kept; from the parameter named
    [name] on, the names are as they were. *)
Fixpoint names_avoid (free_vars : SymbolSet) (name : symbol)
    (before after : list (option symbol)) : Prop :=
  match before, after with
  | [], [] => True
  | None :: before', x' :: after' =>
      x' = None ∧ names_avoid free_vars name before' after'
  | Some old :: before', x' :: after' =>
      if String.eqb old name then after = before
      else (∃ s, x' = Some s ∧ (s ∉ free_vars) ∧ (old ∉ free_vars → s = old))
           ∧ names_avoid free_vars name before' after'
  | _, _ => False
  end.

(** The specification of the binder loop: that of substitution on the
    parameter types and the tail, and [names_avoid] on the names when the
    free variables of the replacement are interned and the loop
    succeeds. *)
Definition params_post {N} (as_symbol : N → option symbol) (X : gset string)
    (name : symbol) (r : Expr) (params : list (Expr * N)) (tail : Expr)
    (res : bool * (list (Expr * N) * Expr)) : Prop :=
  subst_post params_shape X (params, tail) r res ∧
  (expr_free_vars r ⊆ X → res.1 = true →
   names_avoid (expr_free_vars r) name
     (as_symbol <$> params.*2) (as_symbol <$> res.2.1.*2)).

(** ** The renaming of parameters

    [renamed as_symbol of_symbol subst F known names tail names' tail']
    describes what the binder loop does to the parameter names [names]
    and to the return type or body [tail] while it walks the parameters
    that come before a parameter named like the target: a parameter whose
    name is not in [F] is kept; a parameter whose name [old] is in [F]
    gets the symbol [new] that [symbol_gensym] returns for [old] on a
    registry that contains [known], and [tail] is replaced by the result
    of a successful run of [subst] on it with target [old] and
    replacement [Ident new], on a registry that contains [known] and
    [new]. *)
Section Renamed.
Context {N : Type} (as_symbol : N → option symbol) (of_symbol : symbol → N).
Context (subst : Expr → symbol → Expr → Subst (bool * Expr)).
Context (F : SymbolSet) (known : gset string).

Inductive renamed : list N → Expr → list N → Expr → Prop :=
| renamed_nil tail : renamed [] tail [] tail
| renamed_kept x names tail names' tail' :
    (∀ old, as_symbol x = Some old → old ∉ F) →
    renamed names tail names' tail' →
    renamed (x :: names) tail (x :: names') tail'
| renamed_fresh x old new names tail tail1 names' tail' :
    as_symbol x = Some old →
    old ∈ F →
    (∃ context, known ⊆ interns context ∧
                new = (symbol_gensym context old).1) →
    (∃ context context', {[ new ]} ∪ known ⊆ interns context ∧
       subst tail old (EXPR_IDENT new) context
       = Some ((true, tail1), context')) →
    renamed names tail1 names' tail' →
    renamed (x :: names) tail (of_symbol new :: names') tail'.
End Renamed.

(** ** Further syntactic classes, and what substitution computes on them *)

(** Neither a [BinOp] nor a [Lambda] sub-term. *)
Definition is_bin_op_or_lambda (node : Expr) : bool :=
  match node with
  | EXPR_BIN_OP _ _ _ | EXPR_LAMBDA _ _ => true
  | _ => false
  end.

Definition no_bin_op_no_lambda (e : Expr) : bool :=
  expr_all (λ node, negb (is_bin_op_or_lambda node)) e.

(** A binder or a record: the nodes whose names substitution looks at. *)
Definition is_binder_or_record (node : Expr) : bool :=
  match node with
  | EXPR_FUNC_TYPE _ _ | EXPR_LAMBDA _ _
  | EXPR_STRUCT _ | EXPR_PACK _ _ => true
  | _ => false
  end.

Definition plain_node (node : Expr) : bool :=
  negb (is_binder_or_record node).

(** No [FuncType], [Lambda], [Struct] or [Pack] sub-term. *)
Definition plain (e : Expr) : bool := expr_all plain_node e.

Definition plain_statement (s : Statement) : bool :=
  statement_all plain_node s.

(** [replace_idents r e]: [e] with every identifier occurrence replaced by
    [r].  Binders and records are left alone; the function is only used
    on terms that have none. *)
Fixpoint replace_idents (r : Expr) (e : Expr) : Expr :=
  match e with
  | EXPR_LITERAL _ => e
  | EXPR_IDENT _ => r
  | EXPR_BIN_OP op a b =>
      EXPR_BIN_OP op (replace_idents r a) (replace_idents r b)
  | EXPR_IFTHENELSE a b c =>
      EXPR_IFTHENELSE (replace_idents r a) (replace_idents r b)
        (replace_idents r c)
  | EXPR_FUNC_TYPE _ _ | EXPR_LAMBDA _ _ | EXPR_STRUCT _ | EXPR_PACK _ _ => e
  | EXPR_CALL f args =>
      EXPR_CALL (replace_idents r f) (map (replace_idents r) args)
  | EXPR_UNION fs => EXPR_UNION (map (λ p, (replace_idents r p.1, p.2)) fs)
  | EXPR_MEMBER e f => EXPR_MEMBER (replace_idents r e) f
  | EXPR_POINTER e => EXPR_POINTER (replace_idents r e)
  | EXPR_REFERENCE e => EXPR_REFERENCE (replace_idents r e)
  | EXPR_DEREFERENCE e => EXPR_DEREFERENCE (replace_idents r e)
  | EXPR_STATEMENT s => EXPR_STATEMENT (replace_idents_statement r s)
  end
with replace_idents_statement (r : Expr) (s : Statement) : Statement :=
  match s with
  | STATEMENT_EMPTY => s
  | STATEMENT_EXPR e => STATEMENT_EXPR (replace_idents r e)
  | STATEMENT_RETURN e => STATEMENT_RETURN (replace_idents r e)
  | STATEMENT_BLOCK b => STATEMENT_BLOCK (map (replace_idents_statement r) b)
  | STATEMENT_DECL ty x init =>
      STATEMENT_DECL (replace_idents r ty) x
        (match init with
         | Some e => Some (replace_idents r e)
         | None => None
         end)
  | STATEMENT_IFTHENELSE ifs els =>
      STATEMENT_IFTHENELSE
        (map (λ p, (replace_idents r p.1,
                    map (replace_idents_statement r) p.2)) ifs)
        (map (replace_idents_statement r) els)
  end.

(** The name that a statement declares, if it is a declaration. *)
Definition decl_name (s : Statement) : option symbol :=
  match s with
  | STATEMENT_DECL _ name _ => Some name
  | _ => None
  end.

(** ** Pretty-printing of literals and operators

    The printers write to a [FILE *]; here each returns the text it
    writes.  [fprintf(to, "%" PRIu64, n)] writes [n] in decimal. *)

Definition literal_pprint (literal : Literal) : string :=
  match literal with
  | LIT_TYPE => "type"
  | LIT_VOID => "void"
  | LIT_U8 => "u8"
  | LIT_S8 => "s8"
  | LIT_U16 => "u16"
  | LIT_S16 => "s16"
  | LIT_U32 => "u32"
  | LIT_S32 => "s32"
  | LIT_U64 => "u64"
  | LIT_S64 => "s64"
  | LIT_BOOL => "bool"
  | LIT_INTEGRAL integral => pretty integral
  | LIT_BOOLEAN boolean => if boolean then "true" else "false"
  end.

Definition bin_op_pprint (bin_op : BinaryOp) : string :=
  match bin_op with
  | BIN_OP_EQ => " == "
  | BIN_OP_NE => " != "
  | BIN_OP_LT => " < "
  | BIN_OP_LTE => " <= "
  | BIN_OP_GT => " > "
  | BIN_OP_GTE => " >= "
  | BIN_OP_ADD => " + "
  | BIN_OP_SUB => " - "
  | BIN_OP_ANDTHEN => " >> "
  end.

(** ** Auxiliary facts: induction on terms, measures, deep copy *)

Lemma ast_ind (P : Expr → Prop) (Q : Statement → Prop) :
  (∀ l, P (EXPR_LITERAL l)) →
  (∀ s, P (EXPR_IDENT s)) →
  (∀ op a b, P a → P b → P (EXPR_BIN_OP op a b)) →
  (∀ a b c, P a → P b → P c → P (EXPR_IFTHENELSE a b c)) →
  (∀ ret ps, P ret → Forall (λ p, P p.1) ps → P (EXPR_FUNC_TYPE ret ps)) →
  (∀ ps body, Forall (λ p, P p.1) ps → P body → P (EXPR_LAMBDA ps body)) →
  (∀ f args, P f → Forall P args → P (EXPR_CALL f args)) →
  (∀ fs, Forall (λ p, P p.1) fs → P (EXPR_STRUCT fs)) →
  (∀ fs, Forall (λ p, P p.1) fs → P (EXPR_UNION fs)) →
  (∀ ty asg, P ty → Forall (λ p, P p.2) asg → P (EXPR_PACK ty asg)) →
  (∀ e f, P e → P (EXPR_MEMBER e f)) →
  (∀ e, P e → P (EXPR_POINTER e)) →
  (∀ e, P e → P (EXPR_REFERENCE e)) →
  (∀ e, P e → P (EXPR_DEREFERENCE e)) →
  (∀ s, Q s → P (EXPR_STATEMENT s)) →
  Q STATEMENT_EMPTY →
  (∀ e, P e → Q (STATEMENT_EXPR e)) →
  (∀ e, P e → Q (STATEMENT_RETURN e)) →
  (∀ b, Forall Q b → Q (STATEMENT_BLOCK b)) →
  (∀ ty x init, P ty → from_option P True init →
                Q (STATEMENT_DECL ty x init)) →
  (∀ ifs els, Forall (λ p, P p.1 ∧ Forall Q p.2) ifs → Forall Q els →
              Q (STATEMENT_IFTHENELSE ifs els)) →
  (∀ e, P e) ∧ (∀ s, Q s).
Proof.
  intros. split;
    [apply Expr_nested_ind with (Q := Q)
    |apply Statement_nested_ind with (P := P)]; assumption.
Qed.

Lemma map_fixed {A} (f : A → A) l : Forall (λ x, f x = x) l → map f l = l.
Proof. induction 1 as [|x l Hx _ IH]; simpl; congruence. Qed.

Lemma expr_copy_id_aux :
  (∀ e, expr_copy e = e) ∧ (∀ s, statement_copy s = s).
Proof.
  apply ast_ind; simpl; intros; try congruence;
    try (f_equal; try done; apply map_fixed;
         eapply Forall_impl; [eassumption|];
         intros [? ?]; simpl; congruence).
  all: try (f_equal; try done; by apply map_fixed).
  - destruct init; simpl in *; congruence.
  - f_equal; [|by apply map_fixed]. apply map_fixed.
    eapply Forall_impl; [eassumption|].
    intros [c t] [Hc Ht]; simpl in *. f_equal; [done | by apply map_fixed].
Qed.

Lemma expr_copy_id e : expr_copy e = e.
Proof. apply expr_copy_id_aux. Qed.

Lemma max_of_cons {A} (h : A → nat) x l :
  max_of h (x :: l) = h x `max` max_of h l.
Proof. reflexivity. Qed.

Lemma max_of_elem {A} (h : A → nat) x l : x ∈ l → h x ≤ max_of h l.
Proof.
  induction 1 as [x l|x y l _ IH]; rewrite max_of_cons; lia.
Qed.

Lemma max_of_le {A} (h : A → nat) l bound :
  max_of h l ≤ bound ↔ Forall (λ x, h x ≤ bound) l.
Proof.
  induction l as [|x l IH]; [split; [constructor | simpl; lia]|].
  rewrite max_of_cons, Forall_cons. rewrite <- IH. lia.
Qed.

Arguments max_of : simpl never.

Lemma max_of_nil {A} (h : A → nat) : max_of h [] = 0.
Proof. reflexivity. Qed.

Ltac height_lia := rewrite ?max_of_nil, ?max_of_cons in *; simpl in *; lia.

(** ** Properties of structural equality *)

Lemma literal_equal_refl l : literal_equal l l = true.
Proof.
  destruct l; simpl; try reflexivity.
  - apply N.eqb_refl.
  - by destruct boolean.
Qed.

Lemma literal_equal_sym a b : literal_equal a b = literal_equal b a.
Proof.
  destruct a, b; simpl; try reflexivity.
  - apply N.eqb_sym.
  - by destruct boolean, boolean0.
Qed.

Lemma option_symbol_eqb_sym a b : option_symbol_eqb a b = option_symbol_eqb b a.
Proof. destruct a, b; simpl; auto using String.eqb_sym. Qed.

Lemma option_symbol_eqb_refl a : option_symbol_eqb a a = true.
Proof. destruct a; simpl; auto using String.eqb_refl. Qed.

Lemma pairwise_sym {A} (f g : A → A → bool) xs ys :
  Forall (λ x, ∀ y, f x y = g y x) xs →
  length xs = length ys →
  pairwise f xs ys = pairwise g ys xs.
Proof.
  intros Hall. revert ys.
  induction Hall as [|x xs Hx _ IH]; intros [|y ys] Hlen;
    simpl in *; try discriminate; [reflexivity|].
  rewrite Hx. destruct (g y x); [apply IH; lia | reflexivity].
Qed.

Lemma pairwise_refl {A} (f : A → A → bool) xs :
  Forall (λ x, f x x = true) xs → pairwise f xs xs = true.
Proof. induction 1 as [|x xs Hx _ IH]; simpl; [done|]. by rewrite Hx. Qed.

Lemma length_eqb_sym {A B} (xs : list A) (ys : list B) :
  (length xs =? length ys) = (length ys =? length xs).
Proof. apply Nat.eqb_sym. Qed.

Lemma expr_equal_bin_op opx opy x1 x2 y1 y2 :
  expr_equal (EXPR_BIN_OP opx x1 x2) (EXPR_BIN_OP opy y1 y2) = true ↔
  opx ≠ opy ∧ expr_equal x1 y1 = true ∧ expr_equal x2 y2 = true.
Proof.
  simpl. rewrite !andb_true_iff, negb_true_iff, bool_decide_eq_false.
  tauto.
Qed.

Lemma expr_equal_sym_aux x : ∀ y, expr_equal x y = expr_equal y x.
Proof.
  induction x using Expr_nested_ind with (Q := λ _, True);
    try exact I; try (intros; exact I);
    intros y; destruct y; simpl; try reflexivity.
  - apply literal_equal_sym.
  - apply String.eqb_sym.
  - rewrite IHx1, IHx2.
    f_equal. f_equal. f_equal. apply bool_decide_ext. split; congruence.
  - by rewrite IHx1, IHx2, IHx3.
  - rewrite IHx, (length_eqb_sym ps params).
    destruct (expr_equal y x); simpl; [|reflexivity].
    destruct (length params =? length ps) eqn:Hlen; simpl; [|reflexivity].
    apply Nat.eqb_eq in Hlen.
    apply pairwise_sym; [|done].
    eapply Forall_impl; [exact H|]. simpl. intros p Hp q.
    by rewrite Hp, option_symbol_eqb_sym.
  - rewrite (length_eqb_sym ps params).
    destruct (length params =? length ps) eqn:Hlen; simpl; [|reflexivity].
    apply Nat.eqb_eq in Hlen.
    destruct ps as [|[xt0 xn0] ps], params as [|[yt0 yn0] params];
      simpl in Hlen; try discriminate; [apply IHx|].
    inversion H as [|? ? Hx0 Hrest]; subst; simpl in Hx0.
    rewrite IHx.
    rewrite (pairwise_sym
               (λ p q, expr_equal xt0 yt0 && String.eqb p.2 q.2)
               (λ p q, expr_equal yt0 xt0 && String.eqb p.2 q.2)
               ((xt0, xn0) :: ps) ((yt0, yn0) :: params)); [done| |simpl; lia].
    apply Forall_forall. intros p _ q.
    by rewrite Hx0, String.eqb_sym.
  - rewrite IHx, (length_eqb_sym args args0).
    destruct (expr_equal y x); simpl; [|reflexivity].
    destruct (length args0 =? length args) eqn:Hlen; simpl; [|reflexivity].
    apply Nat.eqb_eq in Hlen. by apply pairwise_sym.
  - rewrite (length_eqb_sym fs fields).
    destruct (length fields =? length fs) eqn:Hlen; simpl; [|reflexivity].
    apply Nat.eqb_eq in Hlen. apply pairwise_sym; [|done].
    eapply Forall_impl; [exact H|]. simpl. intros p Hp q.
    by rewrite Hp, String.eqb_sym.
  - rewrite (length_eqb_sym fs fields).
    destruct (length fields =? length fs) eqn:Hlen; simpl; [|reflexivity].
    apply Nat.eqb_eq in Hlen. apply pairwise_sym; [|done].
    eapply Forall_impl; [exact H|]. simpl. intros p Hp q.
    by rewrite Hp, String.eqb_sym.
  - rewrite IHx, (length_eqb_sym asg assigns).
    destruct (expr_equal y x); simpl; [|reflexivity].
    destruct (length assigns =? length asg) eqn:Hlen; simpl; [|reflexivity].
    apply Nat.eqb_eq in Hlen. apply pairwise_sym; [|done].
    eapply Forall_impl; [exact H|]. simpl. intros p Hp q.
    by rewrite Hp, String.eqb_sym.
  - by rewrite IHx, String.eqb_sym.
  - apply IHx.
  - apply IHx.
  - apply IHx.
Qed.

Lemma forallb_Forall_1 {A} (p : A → bool) (P : A → Prop) l :
  Forall (λ x, p x = true → P x) l → forallb p l = true → Forall P l.
Proof.
  induction 1 as [|x l Hx _ IH]; simpl; [constructor|].
  rewrite andb_true_iff. intros [? ?]. constructor; auto.
Qed.

Lemma expr_equal_refl_aux x :
  no_bin_op_no_statement x = true → expr_equal x x = true.
Proof.
  unfold no_bin_op_no_statement.
  induction x using Expr_nested_ind with (Q := λ _, True);
    try exact I; try (intros; exact I); simpl; try discriminate;
    rewrite ?andb_true_iff; intros Hx.
  - apply literal_equal_refl.
  - apply String.eqb_refl.
  - destruct Hx as (Ha & Hb & Hc). by rewrite IHx1, IHx2, IHx3.
  - destruct Hx as [Hret Hps]. rewrite IHx, Nat.eqb_refl by done. simpl.
    apply pairwise_refl. eapply Forall_impl.
    + eapply forallb_Forall_1; [|exact Hps].
      eapply Forall_impl; [exact H|]. intros p Hp Hq. exact (Hp Hq).
    + simpl. intros p Hp. by rewrite Hp, option_symbol_eqb_refl.
  - destruct Hx as [Hps Hbody]. rewrite Nat.eqb_refl. simpl.
    destruct ps as [|[t0 n0] ps]; [by apply IHx|].
    assert (Hall : Forall (λ p, expr_equal p.1 p.1 = true) ((t0, n0) :: ps)).
    { eapply forallb_Forall_1; [|exact Hps].
      eapply Forall_impl; [exact H|]. intros p Hp Hq. exact (Hp Hq). }
    inversion Hall as [|? ? Ht0 _]; subst; simpl in Ht0.
    rewrite pairwise_refl; [by apply IHx|].
    apply Forall_forall. intros p _. by rewrite Ht0, String.eqb_refl.
  - destruct Hx as [Hf Hargs]. rewrite IHx, Nat.eqb_refl by done. simpl.
    apply pairwise_refl. eapply forallb_Forall_1; [|exact Hargs].
    eapply Forall_impl; [exact H|]. intros p Hp Hq. exact (Hp Hq).
  - rewrite Nat.eqb_refl. simpl. apply pairwise_refl. eapply Forall_impl.
    + eapply forallb_Forall_1; [|exact Hx].
      eapply Forall_impl; [exact H|]. intros p Hp Hq. exact (Hp Hq).
    + simpl. intros p Hp. by rewrite Hp, String.eqb_refl.
  - rewrite Nat.eqb_refl. simpl. apply pairwise_refl. eapply Forall_impl.
    + eapply forallb_Forall_1; [|exact Hx].
      eapply Forall_impl; [exact H|]. intros p Hp Hq. exact (Hp Hq).
    + simpl. intros p Hp. by rewrite Hp, String.eqb_refl.
  - destruct Hx as [Hty Hasg]. rewrite IHx, Nat.eqb_refl by done. simpl.
    apply pairwise_refl. eapply Forall_impl.
    + eapply forallb_Forall_1; [|exact Hasg].
      eapply Forall_impl; [exact H|]. intros p Hp Hq. exact (Hp Hq).
    + simpl. intros p Hp. by rewrite Hp, String.eqb_refl.
  - by rewrite IHx, String.eqb_refl.
  - by apply IHx.
  - by apply IHx.
  - by apply IHx.
Qed.

(** C3 (as stated, refuted): [equal(x, x) = true] fails on the
    statement-wrapped expression [[;]], for which [expr_equal] answers
    [false] whatever the operands. *)
Lemma expr_equal_not_reflexive_on_statement :
  expr_equal (EXPR_STATEMENT STATEMENT_EMPTY) (EXPR_STATEMENT STATEMENT_EMPTY)
  = false.
Proof. reflexivity. Qed.

(** C3 (amended): [expr_equal] is symmetric on all expressions, and
    reflexive on every expression that has no statement-wrapped sub-term
    and no [BinOp] sub-term. *)
Theorem expr_equal_symmetric_and_reflexive :
  (∀ x y, expr_equal x y = expr_equal y x) ∧
  (∀ x, no_bin_op_no_statement x = true → expr_equal x x = true).
Proof. split; [apply expr_equal_sym_aux | apply expr_equal_refl_aux]. Qed.

Lemma expr_equal_symmetric_and_reflexive_witness :
  no_bin_op_no_statement (EXPR_POINTER u8) = true ∧
  expr_equal (EXPR_POINTER u8) (EXPR_POINTER u8) = true.
Proof.
  split; [reflexivity|].
  apply (proj2 expr_equal_symmetric_and_reflexive). reflexivity.
Defined.

(** C4 (the code departs from the claim): two [BinOp] expressions with the
    same operator and pairwise equal operands are reported different:
    [equal(1 + 2, 1 + 2) = false].  The operator test is [!=]. *)
Theorem expr_equal_bin_op_same_operator :
  expr_equal one_plus_two one_plus_two = false ∧
  expr_equal (num 1) (num 1) = true ∧
  expr_equal (num 2) (num 2) = true ∧
  (∀ op x1 x2 y1 y2,
     expr_equal (EXPR_BIN_OP op x1 x2) (EXPR_BIN_OP op y1 y2) = false).
Proof.
  repeat split; try reflexivity.
  intros op x1 x2 y1 y2. simpl. by rewrite bool_decide_eq_true_2.
Qed.

(** ** Properties of free-variable analysis *)

Lemma block_free_vars_cons s later :
  block_free_vars (s :: later) =
  (match s with
   | STATEMENT_DECL _ d _ => block_free_vars later ∖ {[ d ]}
   | _ => block_free_vars later
   end) ∪ statement_free_vars s.
Proof. unfold block_free_vars. simpl. by destruct s. Qed.

Lemma block_free_vars_is_spec block :
  block_free_vars block = block_free_vars_spec block.
Proof.
  unfold block_free_vars_spec.
  induction block as [|s later IH]; [reflexivity|].
  rewrite block_free_vars_cons, reverse_cons, foldl_app. simpl.
  rewrite <- IH. by destruct s.
Qed.

(** C7 (as stated, refuted): the free variables of [{ u8 x = y; x + z; }]
    are not [{u8, y, z}]: [u8] is a literal and has no free variable. *)
Lemma block_scoping_example_has_no_u8 :
  block_free_vars block_scoping_example ≠ {[ sym "u8"; sym "y"; sym "z" ]}.
Proof.
  intros Heq.
  assert (Hin : sym "u8" ∈ block_free_vars block_scoping_example)
    by (rewrite Heq; set_solver).
  revert Hin. by vm_compute.
Qed.

(** C7 (amended): [block_free_vars] is the right-to-left fold of the
    specification; a declaration at the head of a block removes its name
    from the free variables of the later statements and then adds the free
    variables of its own type and initial value; and
    [freeVars({ u8 x = y; x + z; }) = {y, z}]. *)
Theorem block_free_vars_right_to_left_fold :
  (∀ block, block_free_vars block = block_free_vars_spec block) ∧
  (∀ ty d init later,
     block_free_vars (STATEMENT_DECL ty d init :: later) =
     (block_free_vars later ∖ {[ d ]}) ∪
     statement_free_vars (STATEMENT_DECL ty d init)) ∧
  block_free_vars block_scoping_example = {[ sym "y"; sym "z" ]}.
Proof.
  split; [apply block_free_vars_is_spec|].
  split; [intros; apply block_free_vars_cons|].
  by vm_compute.
Qed.

Lemma statement_free_vars_ifthenelse_last ifs cond then_ else_ :
  statement_free_vars (STATEMENT_IFTHENELSE (ifs ++ [(cond, then_)]) else_) =
  block_free_vars then_ ∪ expr_free_vars cond.
Proof. simpl. rewrite foldl_app. reflexivity. Qed.

(** C8 (the code departs from the claim): on [if (c) { t; } else { e; }]
    the analysis returns [{c, t}]; the else-block's [e] is lost, as is
    every branch but the last one: the then-block's analysis is written
    over the accumulated set. *)
Theorem statement_free_vars_ifthenelse_drops_else :
  statement_free_vars if_else_example = {[ sym "c"; sym "t" ]} ∧
  sym "e" ∈ block_free_vars [STATEMENT_EXPR (var "e")] ∧
  (sym "e" ∉ statement_free_vars if_else_example) ∧
  (∀ ifs cond then_ else_,
     statement_free_vars
       (STATEMENT_IFTHENELSE (ifs ++ [(cond, then_)]) else_) =
     block_free_vars then_ ∪ expr_free_vars cond).
Proof.
  split; [by vm_compute|].
  split; [by vm_compute|].
  split; [by vm_compute|].
  apply statement_free_vars_ifthenelse_last.
Qed.

(** ** Rules for substitution computations *)

Lemma yields_ret {B} X (b : B) (Q : B → Prop) :
  Q b → yields_from X (subst_ret b) Q.
Proof. intros Hb c Hc. exists b, c. by split. Qed.

Lemma yields_bind {A B} X (m : Subst A) (k : A → Subst B) P Q :
  yields_from X m P →
  (∀ a, P a → yields_from X (k a) Q) →
  yields_from X (subst_bind m k) Q.
Proof.
  intros Hm Hk c Hc.
  destruct (Hm c Hc) as (a & c1 & Em & Ha & Hsub).
  destruct (Hk a Ha c1) as (b & c2 & Ek & Hb & Hsub'); [set_solver|].
  exists b, c2. unfold subst_bind. rewrite Em. split; [done|].
  split; [done | set_solver].
Qed.

Lemma yields_gensym X base :
  yields_from X (gensym base) (λ new, new ∉ X).
Proof.
  intros c Hc. unfold gensym, symbol_gensym. eexists _, _.
  split; [reflexivity|]. simpl. split; [|set_solver].
  pose proof (fresh_string_of_set_fresh (interns c) base). set_solver.
Qed.

Lemma yields_weaken {B} X (m : Subst B) (P Q : B → Prop) :
  yields_from X m P → (∀ b, P b → Q b) → yields_from X m Q.
Proof.
  intros Hm HPQ c Hc. destruct (Hm c Hc) as (b & c' & E & Hb & Hsub).
  exists b, c'. auto.
Qed.

Lemma yields_from_subset {B} X Y (m : Subst B) (Q : B → Prop) :
  Y ⊆ X → yields_from Y m Q → yields_from X m Q.
Proof. intros HYX Hm c Hc. apply Hm. set_solver. Qed.

(** ** The specification of substitution *)

Lemma forallb_impl_Forall {A} (p q : A → bool) l :
  Forall (λ x, p x = true → q x = true) l →
  forallb p l = true → forallb q l = true.
Proof.
  induction 1 as [|x l Hx _ IH]; simpl; [done|].
  rewrite !andb_true_iff. intros [? ?]. auto.
Qed.

Lemma forallb_weaken {A} (p q : A → bool) l :
  (∀ x, p x = true → q x = true) →
  forallb p l = true → forallb q l = true.
Proof. intros H. apply forallb_impl_Forall, Forall_forall. auto. Qed.

Ltac split_andb :=
  repeat match goal with
         | H : _ && _ = true |- _ => apply andb_true_iff in H; destruct H
         | |- _ && _ = true => apply andb_true_iff; split
         end.

Ltac split_andb_hyps :=
  repeat match goal with
         | H : _ && _ = true |- _ => apply andb_true_iff in H; destruct H
         end.

Ltac feed H :=
  match type of H with
  | ?A → _ =>
      let HA := fresh in
      assert (HA : A) by (split_andb; auto); specialize (H HA); clear HA
  end.

Lemma expr_all_impl (p q : Expr → bool) :
  (∀ node, p node = true → q node = true) →
  (∀ e, expr_all p e = true → expr_all q e = true) ∧
  (∀ s, statement_all p s = true → statement_all q s = true).
Proof.
  intros Hpq. apply ast_ind; simpl; intros; split_andb; auto;
    try (eapply forallb_impl_Forall; [|eassumption]; eassumption).
  - destruct init; simpl in *; auto.
  - eapply forallb_impl_Forall; [|eassumption].
    eapply Forall_impl; [eassumption|]. intros [c t] [Hc Ht]; simpl in *.
    intros. split_andb; auto. eapply forallb_impl_Forall; eauto.
Qed.

Lemma fields_all_impl (φ ψ : string → bool) e :
  (∀ s, φ s = true → ψ s = true) →
  fields_all φ e = true → fields_all ψ e = true.
Proof.
  intros H. apply expr_all_impl. intros node. by apply forallb_weaken.
Qed.

Lemma fields_all_fresh X new e :
  new ∉ X →
  fields_all (interned_in X) e = true →
  fields_all (not_free_in (EXPR_IDENT new)) e = true.
Proof.
  intros Hnew. apply fields_all_impl. intros s.
  unfold interned_in, not_free_in, symbol_set_contains. simpl.
  rewrite bool_decide_eq_true, negb_true_iff, bool_decide_eq_false.
  unfold symbol_set_add, symbol_set_empty.
  rewrite elem_of_union, elem_of_singleton. intros Hs [->|Hemp]; [done|].
  by apply not_elem_of_empty in Hemp.
Qed.

Lemma subst_each_post {A} (S : Shape A) X r (f : A → Subst (bool * A)) l :
  (∀ x, x ∈ l → yields_from X (f x) (subst_post S X x r)) →
  yields_from X (subst_each f l) (subst_post (list_shape S) X l r).
Proof.
  induction l as [|x l IH]; intros Hf; simpl.
  - apply yields_ret. unfold subst_post; simpl. split; [height_lia|]. by split.
  - eapply yields_bind; [apply Hf; left|].
    intros [ok x'] (Hh & Hφ & Hok); simpl in *.
    destruct ok; simpl.
    + eapply yields_bind; [apply IH; intros; apply Hf; by right|].
      intros [ok l'] (Hh' & Hφ' & Hok'); simpl in *.
      apply yields_ret. unfold subst_post; simpl.
      split; [height_lia|]. split.
      * intros φ ? ?. split_andb; auto.
      * intros. split_andb; auto.
    + apply yields_ret. unfold subst_post; simpl.
      split; [height_lia|]. split.
      * intros φ ? ?. split_andb; auto.
      * intros. split_andb; auto.
Qed.

Lemma record_fields_subst_post {A} (S : Shape A) X r name
    (sub : A → Subst (bool * A)) (field_name : A → string) l :
  (∀ x φ, fields_ok S φ x = true → φ (field_name x) = true) →
  (∀ x, x ∈ l → yields_from X (sub x) (subst_post S X x r)) →
  yields_from X
    (record_fields_subst sub field_name name (expr_free_vars r) l)
    (subst_post (list_shape S) X l r).
Proof.
  intros Hname.
  induction l as [|x l IH]; intros Hf; simpl.
  - apply yields_ret. unfold subst_post; simpl. split; [height_lia|]. by split.
  - eapply yields_bind; [apply Hf; left|].
    intros [ok x'] (Hh & Hφ & Hok); simpl in *.
    destruct ok; simpl.
    + destruct (String.eqb (field_name x) name).
      { apply yields_ret. unfold subst_post; simpl.
        split; [height_lia|]. split; [|done].
        intros φ ? ?. split_andb; auto. }
      destruct (symbol_set_contains (expr_free_vars r) (field_name x)) eqn:Hin.
      { apply yields_ret. unfold subst_post; simpl.
        split; [height_lia|]. split.
        - intros φ ? ?. split_andb; auto.
        - intros _ _ Hfree. split_andb.
          apply Hname in H. unfold not_free_in in H. by rewrite Hin in H. }
      eapply yields_bind; [apply IH; intros; apply Hf; by right|].
      intros [ok l'] (Hh' & Hφ' & Hok'); simpl in *.
      apply yields_ret. unfold subst_post; simpl.
      split; [height_lia|]. split.
      * intros φ ? ?. split_andb; auto.
      * intros. split_andb; auto.
    + apply yields_ret. unfold subst_post; simpl.
      split; [height_lia|]. split.
      * intros φ ? ?. split_andb; auto.
      * intros. split_andb; auto.
Qed.

Lemma subst_repeat_post X new (f : Expr → Subst (bool * Expr)) bound count :
  (∀ e, expr_height e ≤ bound →
        yields_from X (f e) (subst_post expr_shape X e (EXPR_IDENT new))) →
  ∀ slot, expr_height slot ≤ bound →
    yields_from X (subst_repeat count f slot)
      (subst_post expr_shape X slot (EXPR_IDENT new)).
Proof.
  intros Hf. induction count as [|count IH]; intros slot Hslot; simpl.
  - apply yields_ret. unfold subst_post; simpl. split; [height_lia|]. by split.
  - eapply yields_bind; [by apply Hf|].
    intros [ok slot'] (Hh & Hφ & Hok); simpl in *.
    destruct ok; simpl.
    + eapply yields_weaken; [apply IH; lia|].
      intros [ok slot''] (Hh' & Hφ' & Hok'); simpl in *.
      unfold subst_post; simpl. split; [height_lia|]. split.
      * intros φ ? ?. auto.
      * intros. apply Hok'; auto.
    + apply yields_ret. unfold subst_post; simpl. split; [height_lia|]. split; auto.
Qed.

Section ParamsSpec.
Context {N : Type} (as_symbol : N → option string) (of_symbol : string → N).
Context (subst : Expr → string → Expr → Subst (bool * Expr)).
Context (X : gset string) (name : string) (r : Expr) (B bound : nat).
Hypothesis Has_of : ∀ s, as_symbol (of_symbol s) = Some s.
Hypothesis Hsubst : ∀ e, expr_height e ≤ B →
  yields_from X (subst e name r) (subst_post expr_shape X e r).
Hypothesis Hrename : ∀ e old new, expr_height e ≤ B + expr_height r →
  yields_from X (subst e old (EXPR_IDENT new))
    (subst_post expr_shape X e (EXPR_IDENT new)).

Lemma params_subst_post params : ∀ i tail,
  max_of (height typed_shape) params ≤ B → expr_height tail ≤ B →
  yields_from X
    (params_subst as_symbol of_symbol subst name r (expr_free_vars r)
       bound i params tail)
    (params_post as_symbol X name r params tail).
Proof.
  induction params as [|[ty x] rest IH]; intros i tail Hps Htail; simpl.
  - eapply yields_bind; [by apply Hsubst|].
    intros [ok tail'] (Hh & Hφ & Hok); simpl in *.
    apply yields_ret. split; [|done].
    unfold subst_post; simpl. split; [height_lia|].
    split; [intros φ ? ?; split_andb; auto|intros; split_andb; auto].
  - rewrite max_of_cons in Hps. simpl in Hps.
    eapply yields_bind; [apply Hsubst; lia|].
    intros [ok ty'] (Hh & Hφ & Hok); simpl in *.
    assert (Hcontinue : ∀ ty'' (x' : N) tail',
      expr_height ty'' ≤ expr_height ty + expr_height r →
      expr_height tail' ≤ expr_height tail →
      (∀ φ, fields_all φ ty = true → fields_all φ r = true →
            fields_all φ ty'' = true) →
      (∀ φ, fields_all φ tail = true → fields_all φ tail' = true) →
      (expr_free_vars r ⊆ X →
       match as_symbol x with
       | None => as_symbol x' = None
       | Some old =>
           String.eqb old name = false ∧
           ∃ s, as_symbol x' = Some s ∧ (s ∉ expr_free_vars r) ∧
                (old ∉ expr_free_vars r → s = old)
       end) →
      yields_from X
        (subst_bind (params_subst as_symbol of_symbol subst name r
                       (expr_free_vars r) bound (S i) rest tail')
           (λ res, match res with
                   | (ok, (rest', tail'')) =>
                       subst_ret (ok, ((ty'', x') :: rest', tail''))
                   end))
        (params_post as_symbol X name r ((ty, x) :: rest) tail)).
    { intros ty'' x' tail' Hty'' Htail' Hφty Hφtail Hx'.
      eapply yields_bind; [apply (IH (S i) tail'); lia|].
      intros [ok' [rest' tail'']] [(Hh' & Hφ' & Hok') Hnames]; simpl in *.
      apply yields_ret. split.
      - unfold subst_post; simpl. split; [height_lia|].
        split.
        + intros φ ? ?. split_andb_hyps.
          pose proof (Hφ' φ) as Hres. repeat feed Hres. split_andb; auto.
        + intros. split_andb. apply Hok'; auto; split_andb; auto.
      - simpl. intros HF Hok''. rewrite ?fmap_cons; simpl.
        specialize (Hx' HF). destruct (as_symbol x) as [old|].
        + destruct Hx' as [-> Hs]. split; auto.
        + split; auto. }
    destruct ok; simpl.
    2: { apply yields_ret. split; [|done].
         unfold subst_post; simpl. split; [height_lia|].
         split; [intros φ ? ?; split_andb; auto|intros; split_andb; auto]. }
    destruct (as_symbol x) as [old|] eqn:Hx; [|by apply Hcontinue; auto].
    destruct (String.eqb old name) eqn:Hold.
    { apply yields_ret. split.
      - unfold subst_post; simpl. split; [height_lia|].
        split; [intros φ ? ?; split_andb; auto|done].
      - simpl. intros _ _. rewrite ?fmap_cons; simpl.
        by rewrite Hx, Hold. }
    destruct (symbol_set_contains (expr_free_vars r) old) eqn:Hin.
    2: { apply Hcontinue; auto. intros _. split; [done|].
         exists old. split; [done|]. split; [|done].
         unfold symbol_set_contains in Hin.
         by apply bool_decide_eq_false in Hin. }
    eapply yields_bind; [apply yields_gensym|]. intros new Hnew. simpl.
    eapply yields_bind.
    { apply (subst_repeat_post X new _ (B + expr_height r));
        [intros; by apply Hrename | lia]. }
    intros [ok ty''] (Hh2 & Hφ2 & Hok2); simpl in *.
    destruct ok; simpl.
    2: { apply yields_ret. split; [|done].
         unfold subst_post; simpl. split; [height_lia|].
         split; [intros φ ? ?; split_andb; auto|].
         intros. split_andb. apply Hok2; auto.
         eapply fields_all_fresh; eauto. }
    eapply yields_bind; [apply Hrename; lia|].
    intros [ok tail'] (Hh3 & Hφ3 & Hok3); simpl in *.
    destruct ok; simpl.
    2: { apply yields_ret. split; [|done].
         unfold subst_post; simpl. split; [height_lia|].
         split; [intros φ ? ?; split_andb; auto|].
         intros. split_andb. apply Hok3; auto.
         eapply fields_all_fresh; eauto. }
    apply Hcontinue; auto; try lia.
    intros HF. split; [done|]. exists new. rewrite Has_of.
    split; [done|]. split; [set_solver|].
    unfold symbol_set_contains in Hin. apply bool_decide_eq_true in Hin.
    done.
Qed.
End ParamsSpec.

Lemma forallb_andb {A} (f g : A → bool) l :
  forallb (λ x, f x && g x) l = forallb f l && forallb g l.
Proof.
  induction l as [|x l IH]; simpl; [done|]. rewrite IH.
  destruct (f x), (g x), (forallb f l); simpl; auto.
Qed.

Lemma forallb_fmap {A B} (f : A → B) (p : B → bool) l :
  forallb p (f <$> l) = forallb (λ x, p (f x)) l.
Proof.
  induction l as [|x l IH]; [done|].
  rewrite fmap_cons. simpl. by rewrite IH.
Qed.

Ltac open_shapes :=
  unfold params_shape, branch_shape, block_shape, assign_shape, field_shape,
    typed_shape, pair_shape, list_shape, statement_shape, expr_shape,
    height, fields_ok in *;
  simpl in *; unfold fields_all in *; simpl in *.

Ltac flatten_forallb := rewrite ?forallb_fmap, ?forallb_andb in *.

Ltac use_preserved φ :=
  repeat match goal with
         | H : ∀ φ' : string → bool, _ |- _ =>
             let H' := fresh "Hres" in
             pose proof (H φ) as H'; clear H; simpl in H'
         end;
  flatten_forallb;
  repeat match goal with
         | H : _ → _ |- _ => feed H
         end.

Ltac feed_all :=
  flatten_forallb;
  repeat match goal with
         | H : _ → _ |- _ => feed H
         end.

Ltac post_tac :=
  unfold subst_post in *; open_shapes;
  split; [height_lia|];
  split;
  [ let φ := fresh "φ" in
    intros φ ? ?; use_preserved φ; split_andb; auto
  | intros; feed_all; split_andb; auto ].

Lemma typed_entry_post {N} X r (sub : Expr → Subst (bool * Expr))
    (p : Expr * N) :
  yields_from X (sub p.1) (subst_post expr_shape X p.1 r) →
  yields_from X
    (let* (ok, e') := sub p.1 in subst_ret (ok, (e', p.2)))
    (subst_post typed_shape X p r).
Proof.
  intros Hsub. eapply yields_bind; [exact Hsub|].
  intros [ok e'] (Hh & Hφ & Hok). apply yields_ret. post_tac.
Qed.

Lemma field_entry_post X r (sub : Expr → Subst (bool * Expr))
    (p : Expr * string) :
  yields_from X (sub p.1) (subst_post expr_shape X p.1 r) →
  yields_from X
    (let* (ok, e') := sub p.1 in subst_ret (ok, (e', p.2)))
    (subst_post field_shape X p r).
Proof.
  intros Hsub. eapply yields_bind; [exact Hsub|].
  intros [ok e'] (Hh & Hφ & Hok). apply yields_ret. post_tac.
Qed.

Lemma assign_entry_post X r (sub : Expr → Subst (bool * Expr))
    (p : string * Expr) :
  yields_from X (sub p.2) (subst_post expr_shape X p.2 r) →
  yields_from X
    (let* (ok, e') := sub p.2 in subst_ret (ok, (p.1, e')))
    (subst_post assign_shape X p r).
Proof.
  intros Hsub. eapply yields_bind; [exact Hsub|].
  intros [ok e'] (Hh & Hφ & Hok). apply yields_ret. post_tac.
Qed.

Lemma subst_spec view X : ∀ budget,
  (∀ e name r, expr_height e + expr_height r < budget →
     yields_from X (expr_subst view budget e name r)
       (subst_post expr_shape X e r)) ∧
  (∀ s name r, statement_height s + expr_height r < budget →
     yields_from X (statement_subst view budget s name r)
       (subst_post statement_shape X s r)).
Proof.
  induction budget as [|n [IHe IHs]]; [split; intros; lia|].
  split.
  - intros e name r Hh. destruct e; simpl in Hh |- *.
    + apply yields_ret. post_tac.
    + apply yields_ret. rewrite expr_copy_id. post_tac.
    + eapply yields_bind; [apply IHe; lia|].
      intros [ok1 e1'] (Hh1 & Hφ1 & Hok1). destruct ok1; simpl.
      2: { apply yields_ret. post_tac. }
      eapply yields_bind; [apply IHe; lia|].
      intros [ok2 e2'] (Hh2 & Hφ2 & Hok2). apply yields_ret. post_tac.
    + eapply yields_bind; [apply IHe; lia|].
      intros [ok1 e1'] (Hh1 & Hφ1 & Hok1). destruct ok1; simpl.
      2: { apply yields_ret. post_tac. }
      eapply yields_bind; [apply IHe; lia|].
      intros [ok2 e2'] (Hh2 & Hφ2 & Hok2). destruct ok2; simpl.
      2: { apply yields_ret. post_tac. }
      eapply yields_bind; [apply IHe; lia|].
      intros [ok3 e3'] (Hh3 & Hφ3 & Hok3). apply yields_ret. post_tac.
    + eapply yields_bind.
      { apply (params_subst_post id Some (expr_subst view n) X name r
                 (expr_height e `max`
                  max_of (height typed_shape) params)).
        - done.
        - intros. apply IHe. simpl in *. lia.
        - intros. apply IHe. simpl in *. lia.
        - lia.
        - lia. }
      intros [ok [params' ret']] [(Hh1 & Hφ1 & Hok1) _].
      apply yields_ret. post_tac.
    + eapply yields_bind.
      { apply (params_subst_post Some id (expr_subst view n) X name r
                 (max_of (height typed_shape) params `max`
                  expr_height e)).
        - done.
        - intros. apply IHe. simpl in *. lia.
        - intros. apply IHe. simpl in *. lia.
        - lia.
        - lia. }
      intros [ok [params' body']] [(Hh1 & Hφ1 & Hok1) _].
      apply yields_ret. post_tac.
    + eapply yields_bind; [apply IHe; lia|].
      intros [ok1 e1'] (Hh1 & Hφ1 & Hok1). destruct ok1; simpl.
      2: { apply yields_ret. post_tac. }
      eapply yields_bind.
      { apply (subst_each_post expr_shape X r). intros x Hx.
        apply IHe. apply (max_of_elem expr_height) in Hx. lia. }
      intros [ok2 args'] (Hh2 & Hφ2 & Hok2). apply yields_ret. post_tac.
    + eapply yields_bind.
      { apply (record_fields_subst_post field_shape X r).
        - intros x φ Hx. simpl in Hx. by split_andb_hyps.
        - intros x Hx.
          apply (field_entry_post X r (λ e, expr_subst view n e name r) x).
          apply IHe.
          apply (max_of_elem (λ p, expr_height p.1)) in Hx. lia. }
      intros [ok fields'] (Hh1 & Hφ1 & Hok1). apply yields_ret.
      post_tac.
    + eapply yields_bind.
      { apply (subst_each_post typed_shape X r). intros x Hx.
        apply (typed_entry_post X r (λ e, expr_subst view n e name r) x).
        apply IHe.
        apply (max_of_elem (λ p, expr_height p.1)) in Hx. lia. }
      intros [ok fields'] (Hh1 & Hφ1 & Hok1). apply yields_ret. post_tac.
    + eapply yields_bind.
      { apply (record_fields_subst_post assign_shape X r).
        - intros x φ Hx. simpl in Hx. by split_andb_hyps.
        - intros x Hx.
          apply (assign_entry_post X r (λ e, expr_subst view n e name r) x).
          apply IHe.
          apply (max_of_elem (λ p, expr_height p.2)) in Hx. lia. }
      intros [ok assigns'] (Hh1 & Hφ1 & Hok1). apply yields_ret. post_tac.
    + eapply yields_bind; [apply IHe; lia|].
      intros [ok1 e1'] (Hh1 & Hφ1 & Hok1). apply yields_ret. post_tac.
    + eapply yields_bind; [apply IHe; lia|].
      intros [ok1 e1'] (Hh1 & Hφ1 & Hok1). apply yields_ret. post_tac.
    + eapply yields_bind; [apply IHe; lia|].
      intros [ok1 e1'] (Hh1 & Hφ1 & Hok1). apply yields_ret. post_tac.
    + eapply yields_bind; [apply IHe; lia|].
      intros [ok1 e1'] (Hh1 & Hφ1 & Hok1). apply yields_ret. post_tac.
    + eapply yields_bind; [apply IHs; lia|].
      intros [ok1 s1'] (Hh1 & Hφ1 & Hok1). apply yields_ret. post_tac.
  - assert (Hblock : ∀ block name r,
              block_height block + expr_height r < n →
              yields_from X
                (subst_each (λ s, statement_subst view n s name r) block)
                (subst_post block_shape X block r)).
    { intros block name r Hb. apply (subst_each_post statement_shape X r).
      intros x Hx. apply IHs.
      apply (max_of_elem statement_height) in Hx.
      unfold block_height in Hb. lia. }
    intros s name r Hh. destruct s; simpl in Hh |- *.
    + apply yields_ret. post_tac.
    + eapply yields_bind; [apply IHe; lia|].
      intros [ok1 e1'] (Hh1 & Hφ1 & Hok1). apply yields_ret. post_tac.
    + eapply yields_bind; [apply IHe; lia|].
      intros [ok1 e1'] (Hh1 & Hφ1 & Hok1). apply yields_ret. post_tac.
    + eapply yields_bind; [apply Hblock; unfold block_height; lia|].
      intros [ok1 b'] (Hh1 & Hφ1 & Hok1). apply yields_ret. post_tac.
    + eapply yields_bind; [apply IHe; lia|].
      intros [ok1 e1'] (Hh1 & Hφ1 & Hok1). destruct ok1; simpl.
      2: { apply yields_ret. post_tac. }
      destruct initial_value as [value|].
      * eapply yields_bind; [apply IHe; lia|].
        intros [ok2 e2'] (Hh2 & Hφ2 & Hok2). apply yields_ret. post_tac.
      * apply yields_ret. post_tac.
    + eapply yields_bind.
      { apply (subst_each_post branch_shape X r). intros [c t] Hx. simpl.
        apply (max_of_elem
                 (λ p, expr_height p.1 `max` max_of statement_height p.2))
          in Hx. simpl in Hx.
        eapply yields_bind; [apply IHe; lia|].
        intros [ok1 c'] (Hh1 & Hφ1 & Hok1). destruct ok1; simpl.
        2: { apply yields_ret. post_tac. }
        eapply yields_bind; [apply Hblock; unfold block_height; lia|].
        intros [ok2 t'] (Hh2 & Hφ2 & Hok2). apply yields_ret. post_tac. }
      intros [ok1 ifs'] (Hh1 & Hφ1 & Hok1). destruct ok1; simpl.
      2: { apply yields_ret. post_tac. }
      eapply yields_bind; [apply Hblock; unfold block_height; lia|].
      intros [ok2 els'] (Hh2 & Hφ2 & Hok2). apply yields_ret. post_tac.
Qed.

(** ** Properties of substitution *)

(** *** The scenarios of the specification *)

(** [subst(λ(u8 x) -> x, "x", 42)] leaves the lambda as it is. *)
Example subst_shadowed_parameter :
  expr_subst shared_num_params 2 (EXPR_LAMBDA [(u8, sym "x")] (var "x"))
    (sym "x") (num 42) example_context
  = Some ((true, EXPR_LAMBDA [(u8, sym "x")] (var "x")), example_context).
Proof. reflexivity. Qed.

(** [subst(λ(u8 y) -> x, "x", 42)] yields [λ(u8 y) -> 42]. *)
Example subst_plain :
  expr_subst shared_num_params 2 (EXPR_LAMBDA [(u8, sym "y")] (var "x"))
    (sym "x") (num 42) example_context
  = Some ((true, EXPR_LAMBDA [(u8, sym "y")] (num 42)), example_context).
Proof. reflexivity. Qed.

(** [subst(λ(u8 y) -> x, "x", y)] yields [λ(u8 y') -> y] for the symbol
    [y'] that [symbol_gensym] returns. *)
Example subst_capture_avoiding :
  expr_subst shared_num_params 2 (EXPR_LAMBDA [(u8, sym "y")] (var "x"))
    (sym "x") (var "y") example_context
  = Some ((true,
           EXPR_LAMBDA
             [(u8, (symbol_gensym example_context (sym "y")).1)] (var "y")),
          (symbol_gensym example_context (sym "y")).2).
Proof. reflexivity. Qed.

Example gensym_is_fresh :
  (symbol_gensym example_context (sym "y")).1 ∉ interns example_context.
Proof. apply fresh_string_of_set_fresh. Qed.

(** The [EXPR_IDENT] case does not look at the identifier: the node is
    replaced by a copy of the replacement whatever its name. *)
Lemma expr_subst_ident view budget ident name replacement context :
  expr_subst view (S budget) (EXPR_IDENT ident) name replacement context
  = Some ((true, replacement), context).
Proof. simpl. by rewrite expr_copy_id. Qed.


Lemma expr_subst_spec view X budget e name r :
  expr_height e + expr_height r < budget →
  yields_from X (expr_subst view budget e name r) (subst_post expr_shape X e r).
Proof. apply subst_spec. Qed.

Lemma no_record_fields_all φ e :
  no_record e = true → fields_all φ e = true.
Proof.
  apply expr_all_impl. intros node. by destruct node.
Qed.

(** C10: in a context in which the record field names of the replacement
    are interned, substitution returns, and it returns [ok] unless a
    record field name of the term is free in the replacement (the names of
    the term being interned as well); in particular it returns [ok] for
    every term without [Struct] and [Pack] sub-terms. *)
Theorem expr_subst_without_records_succeeds
    view budget context expr name replacement :
  fields_all (interned_in (interns context)) replacement = true →
  expr_height expr + expr_height replacement < budget →
  (fields_all (interned_in (interns context)) expr = true →
   fields_all (not_free_in replacement) expr = true →
   ∃ expr' context',
     expr_subst view budget expr name replacement context
     = Some ((true, expr'), context')) ∧
  (no_record expr = true →
   ∃ expr' context',
     expr_subst view budget expr name replacement context
     = Some ((true, expr'), context')).
Proof.
  intros Hr Hb.
  destruct (expr_subst_spec view (interns context) budget expr name
              replacement Hb context)
    as ([ok e'] & c' & E & (Hh & Hφ & Hok) & Hsub); [done|].
  simpl in *. split.
  - intros Hin Hfree. exists e', c'. rewrite E. by rewrite Hok.
  - intros Hnr. exists e', c'. rewrite E.
    rewrite Hok; auto using no_record_fields_all.
Qed.

Lemma expr_subst_without_records_succeeds_witness :
  fields_all (interned_in (interns example_context))
    (EXPR_STRUCT [(u8, sym "y")]) = true ∧
  expr_height (EXPR_LAMBDA [(u8, sym "y")] (var "x")) +
    expr_height (EXPR_STRUCT [(u8, sym "y")]) < 4 ∧
  no_record (EXPR_LAMBDA [(u8, sym "y")] (var "x")) = true ∧
  ∃ expr' context',
    expr_subst shared_num_params 4
      (EXPR_LAMBDA [(u8, sym "y")] (var "x")) (sym "x")
      (EXPR_STRUCT [(u8, sym "y")]) example_context
    = Some ((true, expr'), context').
Proof.
  split; [by vm_compute|]. split; [vm_compute; lia|].
  split; [reflexivity|].
  refine (proj2 (expr_subst_without_records_succeeds shared_num_params 4
                   example_context (EXPR_LAMBDA [(u8, sym "y")] (var "x"))
                   (sym "x") (EXPR_STRUCT [(u8, sym "y")]) _ _) _);
    [by vm_compute | vm_compute; lia | reflexivity].
Defined.

Lemma record_fields_subst_names {A} (sub : A → Subst (bool * A))
    (field_name : A → string) name F l :
  (∀ x c ok x' c', sub x c = Some ((ok, x'), c') →
                   field_name x' = field_name x) →
  ∀ c ok l' c',
    record_fields_subst sub field_name name F l c = Some ((ok, l'), c') →
    field_name <$> l' = field_name <$> l.
Proof.
  intros Hsub. induction l as [|x l IH]; intros c ok l' c'; simpl.
  - unfold subst_ret. by intros [= <- <- <-].
  - unfold subst_bind at 1.
    destruct (sub x c) as [[[ok1 x'] c1]|] eqn:E; [|discriminate].
    apply Hsub in E.
    destruct ok1; simpl.
    2: { unfold subst_ret. intros [= <- <- <-]. by rewrite !fmap_cons, E. }
    destruct (String.eqb (field_name x) name).
    { unfold subst_ret. intros [= <- <- <-]. by rewrite !fmap_cons, E. }
    destruct (symbol_set_contains F (field_name x)).
    { unfold subst_ret. intros [= <- <- <-]. by rewrite !fmap_cons, E. }
    unfold subst_bind.
    destruct (record_fields_subst sub field_name name F l c1)
      as [[[ok2 l2] c2]|] eqn:E2; [|discriminate].
    unfold subst_ret. intros [= <- <- <-].
    rewrite !fmap_cons, E. f_equal. eauto.
Qed.

Lemma foldl_union_subset {A} (g : A → gset string) l acc :
  acc ⊆ foldl (λ fv p, symbol_set_union fv (g p)) acc l.
Proof.
  revert acc. induction l as [|x l IH]; intros acc; simpl; [done|].
  etrans; [|apply IH]. unfold symbol_set_union. set_solver.
Qed.

Lemma yields_run {B} (m : Subst B) Q context :
  yields_from ∅ m Q → ∃ b context', m context = Some (b, context') ∧ Q b.
Proof.
  intros Hm. destruct (Hm context) as (b & c' & E & Hb & _); [set_solver|].
  eauto.
Qed.

(** C9: substitution into a [Pack] returns a [Pack] with the very same type
    component and the same field names, whatever the outcome; only the
    assignment expressions are rewritten.  The free variables of the type
    component are nevertheless among the free variables of the [Pack]. *)
Theorem expr_pack_subst_keeps_type
    view budget context type assigns name replacement :
  expr_height (EXPR_PACK type assigns) + expr_height replacement < budget →
  (∃ ok assigns' context',
     expr_subst view budget (EXPR_PACK type assigns) name replacement context
     = Some ((ok, EXPR_PACK type assigns'), context') ∧
     assigns'.*1 = assigns.*1) ∧
  expr_free_vars type ⊆ expr_free_vars (EXPR_PACK type assigns).
Proof.
  intros Hb. split; [|apply foldl_union_subset].
  destruct budget as [|n]; [lia|]. simpl in Hb |- *.
  set (entry := λ assign : string * Expr,
         subst_bind (expr_subst view n assign.2 name replacement)
           (λ '(ok, value'), subst_ret (ok, (assign.1, value')))).
  destruct (yields_run
              (record_fields_subst entry fst name
                 (expr_free_vars replacement) assigns)
              (subst_post (list_shape assign_shape) ∅ assigns replacement)
              context)
    as ([ok assigns'] & c' & E & _).
  { apply (record_fields_subst_post assign_shape ∅ replacement).
    - intros x φ Hx. simpl in Hx. by split_andb_hyps.
    - intros x Hx.
      apply (assign_entry_post ∅ replacement
               (λ e, expr_subst view n e name replacement) x).
      apply expr_subst_spec.
      apply (max_of_elem (λ p, expr_height p.2)) in Hx. lia. }
  exists ok, assigns', c'. unfold subst_bind at 1. rewrite E.
  split; [reflexivity|].
  eapply record_fields_subst_names; [|exact E].
  intros x c ok1 x' c1. unfold entry, subst_bind.
  destruct (expr_subst view n x.2 name replacement c) as [[[? ?] ?]|];
    [|discriminate].
  unfold subst_ret. by intros [= <- <- <-].
Qed.

Lemma expr_pack_subst_keeps_type_witness :
  expr_height (EXPR_PACK (var "x") [(sym "f", var "x")]) +
    expr_height (num 42) < 3 ∧
  (∃ ok assigns' context',
     expr_subst shared_num_params 3
       (EXPR_PACK (var "x") [(sym "f", var "x")]) (sym "x") (num 42)
       example_context
     = Some ((ok, EXPR_PACK (var "x") assigns'), context') ∧
     assigns'.*1 = [(sym "f", var "x")].*1) ∧
  expr_free_vars (var "x") ⊆
    expr_free_vars (EXPR_PACK (var "x") [(sym "f", var "x")]).
Proof.
  split; [vm_compute; lia|].
  apply expr_pack_subst_keeps_type. vm_compute; lia.
Defined.

Lemma record_fields_subst_refuses {A} (sub : A → Subst (bool * A))
    (field_name : A → string) name F pre x post :
  Forall (λ p, field_name p ≠ name ∧
               ∀ c, ∃ ok p' c', sub p c = Some ((ok, p'), c')) pre →
  (∀ c, ∃ ok x' c', sub x c = Some ((ok, x'), c')) →
  field_name x ≠ name →
  symbol_set_contains F (field_name x) = true →
  ∀ c, ∃ l' c',
    record_fields_subst sub field_name name F (pre ++ x :: post) c
    = Some ((false, l'), c').
Proof.
  intros Hpre Hsub Hx HF.
  induction Hpre as [|p pre [Hp Hsubp] _ IH]; intros c; simpl.
  - destruct (Hsub c) as (ok & x' & c' & E).
    unfold subst_bind. rewrite E. destruct ok; simpl; [|by eexists _, _].
    apply String.eqb_neq in Hx. rewrite Hx, HF. by eexists _, _.
  - destruct (Hsubp c) as (ok & p' & c' & E).
    unfold subst_bind at 1. rewrite E. destruct ok; simpl; [|by eexists _, _].
    apply String.eqb_neq in Hp. rewrite Hp.
    destruct (symbol_set_contains F (field_name p)); [by eexists _, _|].
    destruct (IH c') as (l' & c'' & E').
    unfold subst_bind. rewrite E'. by eexists _, _.
Qed.

Lemma expr_subst_runs view budget e name r context :
  expr_height e + expr_height r < budget →
  ∃ ok e' context', expr_subst view budget e name r context
                    = Some ((ok, e'), context').
Proof.
  intros Hb.
  destruct (yields_run _ _ context (expr_subst_spec view ∅ budget e name r Hb))
    as ([ok e'] & c' & E & _).
  eauto.
Qed.

(** C5: substitution into a [Struct] or a [Pack] returns the node with the
    field names it had, whatever the outcome: no field is ever renamed.
    And when a field that is reached before any field named like the
    target has a name that is free in the replacement, the outcome is
    [fail]. *)
Theorem record_subst_refuses_capture view budget context name replacement :
  (∀ fields,
     expr_height (EXPR_STRUCT fields) + expr_height replacement < budget →
     ∃ ok fields' context',
       expr_subst view budget (EXPR_STRUCT fields) name replacement context
       = Some ((ok, EXPR_STRUCT fields'), context') ∧
       fields'.*2 = fields.*2 ∧
       (∀ before type field after,
          fields = before ++ (type, field) :: after →
          Forall (λ p, p.2 ≠ name) before →
          field ≠ name →
          field ∈ expr_free_vars replacement →
          ok = false)) ∧
  (∀ pack_type assigns,
     expr_height (EXPR_PACK pack_type assigns) +
       expr_height replacement < budget →
     ∃ ok assigns' context',
       expr_subst view budget (EXPR_PACK pack_type assigns) name replacement
         context
       = Some ((ok, EXPR_PACK pack_type assigns'), context') ∧
       assigns'.*1 = assigns.*1 ∧
       (∀ before field value after,
          assigns = before ++ (field, value) :: after →
          Forall (λ p, p.1 ≠ name) before →
          field ≠ name →
          field ∈ expr_free_vars replacement →
          ok = false)).
Proof.
  split.
  - intros fields Hb.
    destruct budget as [|n]; [lia|]. simpl in Hb |- *.
    set (entry := λ f : Expr * string,
           subst_bind (expr_subst view n f.1 name replacement)
             (λ '(ok, type'), subst_ret (ok, (type', f.2)))).
    assert (Hruns : ∀ y, y ∈ fields →
              ∀ c, ∃ ok y' c', entry y c = Some ((ok, y'), c')).
    { intros y Hin c.
      apply (max_of_elem (λ p, expr_height p.1)) in Hin.
      destruct (expr_subst_runs view n y.1 name replacement c)
        as (ok & e' & c1 & E); [lia|].
      unfold entry, subst_bind. rewrite E. by eexists _, _, _. }
    destruct (yields_run
                (record_fields_subst entry snd name
                   (expr_free_vars replacement) fields)
                (subst_post (list_shape field_shape) ∅ fields replacement)
                context)
      as ([ok fields'] & c' & E & _).
    { apply (record_fields_subst_post field_shape ∅ replacement).
      - intros x φ Hx. simpl in Hx. by split_andb_hyps.
      - intros x Hx.
        apply (field_entry_post ∅ replacement
                 (λ e, expr_subst view n e name replacement) x).
        apply expr_subst_spec.
        apply (max_of_elem (λ p, expr_height p.1)) in Hx. lia. }
    exists ok, fields', c'. unfold subst_bind at 1. rewrite E.
    split; [reflexivity|]. split.
    + eapply record_fields_subst_names; [|exact E].
      intros x c ok1 x' c1. unfold entry, subst_bind.
      destruct (expr_subst view n x.1 name replacement c) as [[[? ?] ?]|];
        [|discriminate].
      unfold subst_ret. by intros [= <- <- <-].
    + intros before type field after -> Hbefore Hfield Hfree.
      destruct (record_fields_subst_refuses entry snd name
                  (expr_free_vars replacement) before (type, field) after)
        with (c := context) as (l' & c'' & E').
      { apply Forall_forall. intros p Hp. split.
        - by apply (proj1 (Forall_forall _ _) Hbefore).
        - apply Hruns, elem_of_app. by left. }
      { apply Hruns, elem_of_app. right. left. }
      { done. }
      { by apply bool_decide_eq_true. }
      rewrite E in E'. by injection E' as -> _ _.
  - intros pack_type assigns Hb.
    destruct budget as [|n]; [lia|]. simpl in Hb |- *.
    set (entry := λ a : string * Expr,
           subst_bind (expr_subst view n a.2 name replacement)
             (λ '(ok, value'), subst_ret (ok, (a.1, value')))).
    assert (Hruns : ∀ y, y ∈ assigns →
              ∀ c, ∃ ok y' c', entry y c = Some ((ok, y'), c')).
    { intros y Hin c.
      apply (max_of_elem (λ p, expr_height p.2)) in Hin.
      destruct (expr_subst_runs view n y.2 name replacement c)
        as (ok & e' & c1 & E); [lia|].
      unfold entry, subst_bind. rewrite E. by eexists _, _, _. }
    destruct (yields_run
                (record_fields_subst entry fst name
                   (expr_free_vars replacement) assigns)
                (subst_post (list_shape assign_shape) ∅ assigns replacement)
                context)
      as ([ok assigns'] & c' & E & _).
    { apply (record_fields_subst_post assign_shape ∅ replacement).
      - intros x φ Hx. simpl in Hx. by split_andb_hyps.
      - intros x Hx.
        apply (assign_entry_post ∅ replacement
                 (λ e, expr_subst view n e name replacement) x).
        apply expr_subst_spec.
        apply (max_of_elem (λ p, expr_height p.2)) in Hx. lia. }
    exists ok, assigns', c'. unfold subst_bind at 1. rewrite E.
    split; [reflexivity|]. split.
    + eapply record_fields_subst_names; [|exact E].
      intros x c ok1 x' c1. unfold entry, subst_bind.
      destruct (expr_subst view n x.2 name replacement c) as [[[? ?] ?]|];
        [|discriminate].
      unfold subst_ret. by intros [= <- <- <-].
    + intros before field value after -> Hbefore Hfield Hfree.
      destruct (record_fields_subst_refuses entry fst name
                  (expr_free_vars replacement) before (field, value) after)
        with (c := context) as (l' & c'' & E').
      { apply Forall_forall. intros p Hp. split.
        - by apply (proj1 (Forall_forall _ _) Hbefore).
        - apply Hruns, elem_of_app. by left. }
      { apply Hruns, elem_of_app. right. left. }
      { done. }
      { by apply bool_decide_eq_true. }
      rewrite E in E'. by injection E' as -> _ _.
Qed.

Lemma record_subst_refuses_capture_witness :
  (∃ fields' context',
     expr_subst shared_num_params 3
       (EXPR_STRUCT [(u8, sym "z"); (var "x", sym "y")])
       (sym "x") (var "y") example_context
     = Some ((false, EXPR_STRUCT fields'), context') ∧
     fields'.*2 = [(u8, sym "z"); (var "x", sym "y")].*2) ∧
  (∃ assigns' context',
     expr_subst shared_num_params 3
       (EXPR_PACK (var "t") [(sym "z", num 1); (sym "y", var "x")])
       (sym "x") (var "y") example_context
     = Some ((false, EXPR_PACK (var "t") assigns'), context') ∧
     assigns'.*1 = [(sym "z", num 1); (sym "y", var "x")].*1).
Proof.
  pose proof (record_subst_refuses_capture shared_num_params 3
                example_context (sym "x") (var "y")) as [Hstruct Hpack].
  assert (Hfree : sym "y" ∈ expr_free_vars (var "y")) by (by vm_compute).
  assert (Hne : sym "y" ≠ sym "x") by discriminate.
  split.
  - destruct (Hstruct [(u8, sym "z"); (var "x", sym "y")])
      as (ok & fields' & c' & E & Hnames & Hrefuse); [vm_compute; lia|].
    assert (Hok : ok = false).
    { apply (Hrefuse [(u8, sym "z")] (var "x") (sym "y") []);
        [reflexivity | | done | done].
      repeat constructor. simpl. discriminate. }
    subst ok. by exists fields', c'.
  - destruct (Hpack (var "t") [(sym "z", num 1); (sym "y", var "x")])
      as (ok & assigns' & c' & E & Hnames & Hrefuse); [vm_compute; lia|].
    assert (Hok : ok = false).
    { apply (Hrefuse [(sym "z", num 1)] (sym "y") (var "x") []);
        [reflexivity | | done | done].
      repeat constructor. simpl. discriminate. }
    subst ok. by exists assigns', c'.
Defined.

(** C6 (the code departs from the claim): [block_subst] substitutes into
    every statement of the block.  In [{ u8 x; x; }] the [x] that follows
    the declaration of [x] is replaced, and in [{ u8 y; x; }] the
    declaration of [y] is kept while [y] is put under it. *)
Theorem block_subst_ignores_declarations view :
  block_subst view 2 redeclaring_block (sym "x") (num 42) example_context
  = Some ((true, [ STATEMENT_DECL u8 (sym "x") None;
                   STATEMENT_EXPR (num 42) ]), example_context) ∧
  block_subst view 2 capturing_block (sym "x") (var "y") example_context
  = Some ((true, [ STATEMENT_DECL u8 (sym "y") None;
                   STATEMENT_EXPR (var "y") ]), example_context) ∧
  sym "x" ∉ block_free_vars redeclaring_block.
Proof. split; [reflexivity|]. split; [reflexivity|]. by vm_compute. Qed.

(** C1 (as stated, refuted): substituting [y] for [x] in the function type
    [u8[u8 x, u8 y]] succeeds and leaves the term as it is, because the
    first parameter shadows [x]; the binder [y] of the result is a free
    variable of the replacement. *)
Lemma shadowed_binder_keeps_free_name :
  expr_subst shared_num_params 2
    (EXPR_FUNC_TYPE u8 [(u8, Some (sym "x")); (u8, Some (sym "y"))])
    (sym "x") (var "y") example_context
  = Some ((true,
           EXPR_FUNC_TYPE u8 [(u8, Some (sym "x")); (u8, Some (sym "y"))]),
          example_context) ∧
  sym "y" ∈ expr_free_vars (var "y").
Proof. split; [reflexivity | by vm_compute]. Qed.

(** The renaming loop of both binder functions rewrites the type of the
    renamed parameter on each of its iterations and never the types of
    the later parameters: in [u8[u8 y, y* z]] with [x := y] the parameter
    [y] gets a fresh name while the type of [z] still mentions [y]. *)
Lemma renaming_skips_later_parameter_types :
  fst <$> expr_subst shared_num_params 3
            (EXPR_FUNC_TYPE u8 [(u8, Some (sym "y"));
                                (EXPR_POINTER (var "y"), Some (sym "z"))])
            (sym "x") (var "y") example_context
  = Some (true,
          EXPR_FUNC_TYPE u8
            [(u8, Some (symbol_gensym example_context (sym "y")).1);
             (EXPR_POINTER (var "y"), Some (sym "z"))]).
Proof. reflexivity. Qed.

(** *** Substitution only adds to the interned symbols *)

Lemma grows_ret {A} (a : A) : grows (subst_ret a).
Proof. intros c a' c' [= _ <-]. done. Qed.

Lemma grows_bind {A B} (m : Subst A) (k : A → Subst B) :
  grows m → (∀ a, grows (k a)) → grows (subst_bind m k).
Proof.
  intros Hm Hk c b c'. unfold subst_bind.
  destruct (m c) as [[a c1]|] eqn:Em; [|done]. intros Ek.
  etrans; [eapply Hm, Em | eapply Hk, Ek].
Qed.

Lemma grows_gensym base : grows (gensym base).
Proof.
  intros c a c' [= _ <-]. simpl. apply union_subseteq_r.
Qed.

Lemma grows_out_of_budget {A} : grows (@out_of_budget A).
Proof. intros c a c'. discriminate. Qed.

Lemma grows_if {A} (b : bool) (m1 m2 : Subst A) :
  grows m1 → grows m2 → grows (if b then m1 else m2).
Proof. by destruct b. Qed.

Ltac grows_tac :=
  repeat first
    [ apply grows_ret
    | apply grows_gensym
    | apply grows_out_of_budget
    | apply grows_if
    | apply grows_bind; [|intros [? ?]]
    | assumption ].

Lemma grows_subst_each {A} (f : A → Subst (bool * A)) l :
  (∀ x, grows (f x)) → grows (subst_each f l).
Proof.
  intros Hf. induction l as [|x l IH]; simpl; grows_tac; auto.
Qed.

Lemma grows_subst_repeat count (f : Expr → Subst (bool * Expr)) :
  (∀ e, grows (f e)) → ∀ slot, grows (subst_repeat count f slot).
Proof.
  intros Hf. induction count as [|count IH]; intros slot; simpl;
    grows_tac; auto.
Qed.

Lemma grows_record_fields_subst {A} (sub : A → Subst (bool * A))
    (field_name : A → string) name F l :
  (∀ x, grows (sub x)) → grows (record_fields_subst sub field_name name F l).
Proof.
  intros Hf. induction l as [|x l IH]; simpl; grows_tac; auto.
Qed.

Lemma grows_params_subst {N} (as_symbol : N → option string) of_symbol
    (subst : Expr → string → Expr → Subst (bool * Expr))
    name r F bound params :
  (∀ e nm rr, grows (subst e nm rr)) →
  ∀ i tail,
    grows (params_subst as_symbol of_symbol subst name r F bound i
             params tail).
Proof.
  intros Hf. induction params as [|[ty x] rest IH]; intros i tail; simpl.
  - grows_tac; auto.
  - apply grows_bind; [auto|]. intros [ok ty']. apply grows_if; [grows_tac|].
    assert (Hcontinue : ∀ ty1 x1 tail1,
      grows (subst_bind (params_subst as_symbol of_symbol subst name r F
                           bound (S i) rest tail1)
               (λ res, match res with
                       | (ok, (rest', tail'')) =>
                           subst_ret (ok, ((ty1, x1) :: rest', tail''))
                       end))).
    { intros. apply grows_bind; [apply IH|]. intros [? [? ?]].
      apply grows_ret. }
    destruct (as_symbol x) as [old|]; [|apply Hcontinue].
    apply grows_if; [grows_tac|]. apply grows_if; [|apply Hcontinue].
    apply grows_bind; [apply grows_gensym|]. intros new.
    apply grows_bind; [apply grows_subst_repeat; auto|]. intros [ok2 ty2].
    apply grows_if; [grows_tac|].
    apply grows_bind; [auto|]. intros [ok3 tail3].
    apply grows_if; [grows_tac|]. apply Hcontinue.
Qed.

Lemma expr_subst_grows view : ∀ budget,
  (∀ e name r, grows (expr_subst view budget e name r)) ∧
  (∀ s name r, grows (statement_subst view budget s name r)).
Proof.
  induction budget as [|n [IHe IHs]];
    [split; intros; apply grows_out_of_budget|].
  split.
  - intros e name r. destruct e; simpl; grows_tac; auto;
      try (apply grows_params_subst; auto);
      try (apply grows_subst_each; intros; grows_tac; auto);
      try (apply grows_record_fields_subst; intros; grows_tac; auto).
    all: destruct p; apply grows_ret.
  - intros s name r. destruct s; simpl; grows_tac; auto;
      try (apply grows_subst_each; intros; grows_tac; auto).
    + destruct initial_value; grows_tac; auto.
    + apply grows_subst_each; intros; grows_tac; auto.
Qed.

Lemma params_subst_renames {N} (as_symbol : N → option string) of_symbol
    (subst : Expr → string → Expr → Subst (bool * Expr))
    name r F known bound before :
  (∀ e nm rr, grows (subst e nm rr)) →
  ∀ i rest tail c params' tail' c',
    known ⊆ interns c →
    Forall (λ p, as_symbol p.2 ≠ Some name) before →
    params_subst as_symbol of_symbol subst name r F bound i
      (before ++ rest) tail c
    = Some ((true, (params', tail')), c') →
    ∃ before' rest' tail1 c1,
      params' = before' ++ rest' ∧
      length before' = length before ∧
      renamed as_symbol of_symbol subst F known
        before.*2 tail before'.*2 tail1 ∧
      known ⊆ interns c1 ∧
      params_subst as_symbol of_symbol subst name r F bound
        (i + length before) rest tail1 c1
      = Some ((true, (rest', tail')), c').
Proof.
  intros Hgrow.
  induction before as [|[t y] before IH];
    intros i rest tail c params' tail' c' Hc Hnames E.
  - exists [], params', tail, c. simpl. rewrite Nat.add_0_r.
    repeat split; try done. constructor.
  - apply Forall_cons in Hnames as [Hy Hnames]. simpl in Hy.
    simpl in E. unfold subst_bind at 1 in E.
    destruct (subst t name r c) as [[[ok1 t'] c1]|] eqn:Et; [|done].
    pose proof (Hgrow _ _ _ _ _ _ Et) as Hc1.
    assert (Hknown1 : known ⊆ interns c1) by (etrans; [exact Hc | exact Hc1]).
    destruct ok1; simpl in E; [|discriminate].
    assert (Hcontinue : ∀ t1 (y1 : N) tail1 c2,
      known ⊆ interns c2 →
      subst_bind (params_subst as_symbol of_symbol subst name r F bound
                    (S i) (before ++ rest) tail1)
        (λ res, match res with
                | (ok, (rest', tail'')) =>
                    subst_ret (ok, ((t1, y1) :: rest', tail''))
                end) c2
      = Some ((true, (params', tail')), c') →
      ∃ before' rest' tail2 c3,
        params' = ((t1, y1) :: before') ++ rest' ∧
        length before' = length before ∧
        renamed as_symbol of_symbol subst F known
          before.*2 tail1 before'.*2 tail2 ∧
        known ⊆ interns c3 ∧
        params_subst as_symbol of_symbol subst name r F bound
          (i + S (length before)) rest tail2 c3
        = Some ((true, (rest', tail')), c')).
    { intros t1 y1 tail1 c2 Hc2 E2. unfold subst_bind in E2.
      destruct (params_subst _ _ _ _ _ _ _ _ _ _ _)
        as [[[ok' [rest0 tail0]] c4]|] eqn:Er; [|done].
      injection E2 as -> <- <- <-.
      destruct (IH _ _ _ _ _ _ _ Hc2 Hnames Er)
        as (before' & rest' & tail2 & c3 & -> & Hlen & Hren & Hc3 & Erest).
      exists before', rest', tail2, c3. rewrite Nat.add_succ_r.
      repeat split; done. }
    destruct (as_symbol y) as [old|] eqn:Hyold.
    + destruct (String.eqb old name) eqn:Hold.
      { apply String.eqb_eq in Hold. by subst old. }
      destruct (symbol_set_contains F old) eqn:HF.
      * unfold subst_bind at 1, gensym in E.
        destruct (symbol_gensym c1 old) as [new cg] eqn:Eg.
        assert (Hnew : new = (symbol_gensym c1 old).1) by (by rewrite Eg).
        assert (Hcg : {[ new ]} ∪ interns c1 ⊆ interns cg).
        { unfold symbol_gensym in Eg. by injection Eg as <- <-. }
        unfold subst_bind at 1 in E.
        destruct (subst_repeat _ _ _ _) as [[[ok2 t2] c2]|] eqn:Erep;
          [|done].
        assert (Hc2 : interns cg ⊆ interns c2).
        { eapply grows_subst_repeat; [|exact Erep]. intros e. apply Hgrow. }
        destruct ok2; simpl in E; [|discriminate].
        unfold subst_bind at 1 in E.
        destruct (subst tail old _ c2) as [[[ok3 tail1] c3]|] eqn:Etail;
          [|done].
        pose proof (Hgrow _ _ _ _ _ _ Etail) as Hc3.
        destruct ok3; simpl in E; [|discriminate].
        assert (Hknown3 : known ⊆ interns c3).
        { etrans; [exact Hknown1|].
          etrans; [|exact Hc3]. etrans; [|exact Hc2].
          etrans; [|exact Hcg]. apply union_subseteq_r. }
        destruct (Hcontinue _ _ _ c3 Hknown3 E)
          as (before' & rest' & tail2 & c4 & -> & Hlen & Hren & Hc4 & Er).
        exists ((t2, of_symbol new) :: before'), rest', tail2, c4.
        split; [done|]. split; [simpl; by rewrite Hlen|].
        split; [|done]. rewrite !fmap_cons. simpl.
        eapply renamed_fresh; [exact Hyold | | | | exact Hren].
        -- unfold symbol_set_contains in HF.
           by apply bool_decide_eq_true in HF.
        -- exists c1. split; [exact Hknown1 | done].
        -- exists c2, c3. split; [|exact Etail].
           etrans; [|exact Hc2]. etrans; [|exact Hcg].
           apply union_mono_l. exact Hknown1.
      * destruct (Hcontinue _ _ _ c1 Hknown1 E)
          as (before' & rest' & tail2 & c4 & -> & Hlen & Hren & Hc4 & Er).
        exists ((t', y) :: before'), rest', tail2, c4.
        split; [done|]. split; [simpl; by rewrite Hlen|].
        split; [|done]. rewrite !fmap_cons. simpl.
        apply renamed_kept; [|exact Hren].
        intros old' Hold'. rewrite Hyold in Hold'. injection Hold' as <-.
        unfold symbol_set_contains in HF.
        by apply bool_decide_eq_false in HF.
    + destruct (Hcontinue _ _ _ c1 Hknown1 E)
        as (before' & rest' & tail2 & c4 & -> & Hlen & Hren & Hc4 & Er).
      exists ((t', y) :: before'), rest', tail2, c4.
      split; [done|]. split; [simpl; by rewrite Hlen|].
      split; [|done]. rewrite !fmap_cons. simpl.
      apply renamed_kept; [|exact Hren].
      intros old' Hold'. by rewrite Hyold in Hold'.
Qed.

Lemma renamed_names_avoid {N} (as_symbol : N → option string) of_symbol
    (subst : Expr → string → Expr → Subst (bool * Expr))
    (F known : gset string) names tail names' tail' :
  (∀ s, as_symbol (of_symbol s) = Some s) →
  F ⊆ known →
  renamed as_symbol of_symbol subst F known names tail names' tail' →
  Forall (λ x', ∀ s, as_symbol x' = Some s → s ∉ F) names'.
Proof.
  intros Has_of HF. induction 1 as [| |x old new names tail tail1 names'
                                     tail' Hx Hold (c & Hc & Hnew) _ _ IH];
    constructor; auto.
  intros s Hs. rewrite Has_of in Hs. injection Hs as <-.
  pose proof (fresh_string_of_set_fresh (interns c) old) as Hfresh.
  rewrite Hnew. simpl. intros Hin. apply Hfresh. apply Hc, HF, Hin.
Qed.

Lemma params_subst_at_end {N} (as_symbol : N → option string) of_symbol
    (subst : Expr → string → Expr → Subst (bool * Expr))
    name r F bound i tail c ok params' tail' c' :
  params_subst as_symbol of_symbol subst name r F bound i [] tail c
  = Some ((ok, (params', tail')), c') →
  params' = [] ∧ subst tail name r c = Some ((ok, tail'), c').
Proof.
  simpl. unfold subst_bind, subst_ret.
  destruct (subst tail name r c) as [[[ok1 tail1] c1]|]; [|done].
  intros [= -> <- <- <-]. done.
Qed.

Lemma params_subst_at_shadow {N} (as_symbol : N → option string) of_symbol
    (subst : Expr → string → Expr → Subst (bool * Expr))
    name r F bound i type x after tail c params' tail' c' :
  as_symbol x = Some name →
  params_subst as_symbol of_symbol subst name r F bound i
    ((type, x) :: after) tail c
  = Some ((true, (params', tail')), c') →
  tail' = tail ∧ params'.*2 = x :: after.*2 ∧ drop 1 params' = after.
Proof.
  intros Hx. simpl. unfold subst_bind, subst_ret.
  destruct (subst type name r c) as [[[ok1 type1] c1]|]; [|done].
  destruct ok1; simpl; [|discriminate].
  rewrite Hx, String.eqb_refl. intros [= <- <- <-]. done.
Qed.

Lemma params_subst_avoids_capture {N} (as_symbol : N → option string)
    of_symbol (subst : Expr → string → Expr → Subst (bool * Expr))
    name r known bound before rest tail c params' tail' c' :
  (∀ s, as_symbol (of_symbol s) = Some s) →
  (∀ e nm rr, grows (subst e nm rr)) →
  expr_free_vars r ⊆ known →
  known ⊆ interns c →
  Forall (λ p, as_symbol p.2 ≠ Some name) before →
  params_subst as_symbol of_symbol subst name r (expr_free_vars r) bound 0
    (before ++ rest) tail c
  = Some ((true, (params', tail')), c') →
  ∃ before' rest' tail1,
    params' = before' ++ rest' ∧
    renamed as_symbol of_symbol subst (expr_free_vars r) known
      before.*2 tail before'.*2 tail1 ∧
    Forall (λ x', ∀ s, as_symbol x' = Some s → s ∉ expr_free_vars r)
      before'.*2 ∧
    match rest with
    | [] =>
        rest' = [] ∧
        ∃ c1 c2, known ⊆ interns c1 ∧
                 subst tail1 name r c1 = Some ((true, tail'), c2)
    | (type, x) :: after =>
        as_symbol x = Some name →
        tail' = tail1 ∧ rest'.*2 = rest.*2 ∧ drop 1 rest' = after
    end.
Proof.
  intros Has_of Hgrow HF Hc Hnames E.
  destruct (params_subst_renames as_symbol of_symbol subst name r
              (expr_free_vars r) known bound before Hgrow
              0 rest tail c params' tail' c' Hc Hnames E)
    as (before' & rest' & tail1 & c1 & -> & Hlen & Hren & Hc1 & Erest).
  exists before', rest', tail1. split; [done|]. split; [done|].
  split; [by eapply renamed_names_avoid|].
  destruct rest as [|[type x] after].
  - apply params_subst_at_end in Erest as [-> Etail].
    split; [done|]. by exists c1, c'.
  - intros Hx.
    eapply params_subst_at_shadow in Erest as (-> & Hn & Hd); done.
Qed.

(** C1 (amended): in a context in which the free variables of the
    replacement are interned, substitution into a [FuncType] or [Lambda]
    returns a node of the same kind, and when it succeeds the parameters
    [before] the first one named like the target, and the return type or
    body, are related to the original ones by [renamed]: a parameter whose
    name is not free in the replacement keeps its name; a parameter whose
    name [old] is free in it gets the fresh symbol [new] that
    [symbol_gensym] returns for [old], and [expr_subst] is run on the
    return type or body with target [old] and replacement [Ident new], in
    the order of the parameters.  Consequently none of these parameters
    has, in the result, a name that is free in the replacement.  When no
    parameter is named like the target, the target is then substituted in
    the return type or body; when one is, the return type or body is left
    as the renamings made it, that parameter keeps its name, and the
    parameters after it are as they were. *)
Theorem binder_subst_avoids_capture view budget context name replacement :
  expr_free_vars replacement ⊆ interns context →
  (∀ ret_type before rest,
     Forall (λ p, p.2 ≠ Some name) before →
     expr_height (EXPR_FUNC_TYPE ret_type (before ++ rest)) +
       expr_height replacement < S budget →
     ∃ ok ret_type' params' context',
       expr_subst view (S budget)
         (EXPR_FUNC_TYPE ret_type (before ++ rest)) name replacement context
       = Some ((ok, EXPR_FUNC_TYPE ret_type' params'), context') ∧
       (ok = true →
        ∃ before' rest' ret_type1,
          params' = before' ++ rest' ∧
          renamed id Some (expr_subst view budget)
            (expr_free_vars replacement) (interns context)
            before.*2 ret_type before'.*2 ret_type1 ∧
          Forall (λ x', ∀ s, x' = Some s → s ∉ expr_free_vars replacement)
            before'.*2 ∧
          match rest with
          | [] =>
              rest' = [] ∧
              ∃ context1 context2,
                interns context ⊆ interns context1 ∧
                expr_subst view budget ret_type1 name replacement context1
                = Some ((true, ret_type'), context2)
          | (type, x) :: after =>
              x = Some name →
              ret_type' = ret_type1 ∧ rest'.*2 = rest.*2 ∧
              drop 1 rest' = after
          end)) ∧
  (∀ body before rest,
     Forall (λ p, p.2 ≠ name) before →
     expr_height (EXPR_LAMBDA (before ++ rest) body) +
       expr_height replacement < S budget →
     ∃ ok params' body' context',
       expr_subst view (S budget)
         (EXPR_LAMBDA (before ++ rest) body) name replacement context
       = Some ((ok, EXPR_LAMBDA params' body'), context') ∧
       (ok = true →
        ∃ before' rest' body1,
          params' = before' ++ rest' ∧
          renamed Some id (expr_subst view budget)
            (expr_free_vars replacement) (interns context)
            before.*2 body before'.*2 body1 ∧
          Forall (λ x', x' ∉ expr_free_vars replacement) before'.*2 ∧
          match rest with
          | [] =>
              rest' = [] ∧
              ∃ context1 context2,
                interns context ⊆ interns context1 ∧
                expr_subst view budget body1 name replacement context1
                = Some ((true, body'), context2)
          | (type, x) :: after =>
              x = name →
              body' = body1 ∧ rest'.*2 = rest.*2 ∧ drop 1 rest' = after
          end)).
Proof.
  intros HF. split.
  - intros ret_type before rest Hnames Hb.
    destruct (expr_subst_runs view (S budget) _ name replacement context Hb)
      as (ok & e' & c' & E).
    simpl in E. unfold subst_bind, subst_ret in E.
    destruct (params_subst _ _ _ _ _ _ _ _ _ _ _)
      as [[[ok' [params' ret_type']] c1]|] eqn:Ep; [|done].
    injection E as <- <- <-.
    exists ok', ret_type', params', c1.
    split; [simpl; unfold subst_bind, subst_ret; by rewrite Ep|].
    intros ->.
    apply (params_subst_avoids_capture id Some _ _ _ (interns context))
      in Ep; try done.
    intros e nm rr. apply expr_subst_grows.
  - intros body before rest Hnames Hb.
    destruct (expr_subst_runs view (S budget) _ name replacement context Hb)
      as (ok & e' & c' & E).
    simpl in E. unfold subst_bind, subst_ret in E.
    destruct (params_subst _ _ _ _ _ _ _ _ _ _ _)
      as [[[ok' [params' body']] c1]|] eqn:Ep; [|done].
    injection E as <- <- <-.
    exists ok', params', body', c1.
    split; [simpl; unfold subst_bind, subst_ret; by rewrite Ep|].
    intros ->.
    apply (params_subst_avoids_capture Some id _ _ _ (interns context))
      in Ep; try done.
    + destruct Ep as (before' & rest' & body1 & -> & Hren & Hall & Hrest).
      exists before', rest', body1. split; [done|]. split; [done|].
      split.
      * eapply Forall_impl; [exact Hall|]. intros x' Hx'. by apply Hx'.
      * destruct rest as [|[type x] after]; [done|].
        intros ->. by apply Hrest.
    + intros e nm rr. apply expr_subst_grows.
    + eapply Forall_impl; [exact Hnames|]. intros [ty x] Hx. simpl in *.
      congruence.
Qed.

Lemma binder_subst_avoids_capture_witness :
  expr_free_vars (var "y") ⊆ interns example_context ∧
  (∃ ok ret_type' params' context',
     expr_subst shared_num_params 2
       (EXPR_FUNC_TYPE (var "x")
          ([(u8, Some (sym "y"))] ++ [(u8, Some (sym "x")); (var "x", None)]))
       (sym "x") (var "y") example_context
     = Some ((ok, EXPR_FUNC_TYPE ret_type' params'), context') ∧
     (ok = true →
      ∃ before' rest' ret_type1,
        params' = before' ++ rest' ∧
        renamed id Some (expr_subst shared_num_params 1)
          (expr_free_vars (var "y")) (interns example_context)
          [(u8, Some (sym "y"))].*2 (var "x") before'.*2 ret_type1 ∧
        Forall (λ x', ∀ s, x' = Some s → s ∉ expr_free_vars (var "y"))
          before'.*2 ∧
        (Some (sym "x") = Some (sym "x") →
         ret_type' = ret_type1 ∧
         rest'.*2 = [(u8, Some (sym "x")); (var "x", None)].*2 ∧
         drop 1 rest' = [(var "x", None)]))) ∧
  (∃ ok params' body' context',
     expr_subst shared_num_params 2
       (EXPR_LAMBDA ([(u8, sym "y")] ++ []) (var "x"))
       (sym "x") (var "y") example_context
     = Some ((ok, EXPR_LAMBDA params' body'), context') ∧
     (ok = true →
      ∃ before' rest' body1,
        params' = before' ++ rest' ∧
        renamed Some id (expr_subst shared_num_params 1)
          (expr_free_vars (var "y")) (interns example_context)
          [(u8, sym "y")].*2 (var "x") before'.*2 body1 ∧
        Forall (λ x', x' ∉ expr_free_vars (var "y")) before'.*2 ∧
        rest' = [] ∧
        ∃ context1 context2,
          interns example_context ⊆ interns context1 ∧
          expr_subst shared_num_params 1 body1 (sym "x") (var "y") context1
          = Some ((true, body'), context2))).
Proof.
  assert (HF : expr_free_vars (var "y") ⊆ interns example_context).
  { apply elem_of_subseteq. intros s Hs. revert Hs. simpl.
    unfold symbol_set_add, symbol_set_empty.
    rewrite elem_of_union, elem_of_singleton. intros [->|Hs].
    - by vm_compute.
    - by apply not_elem_of_empty in Hs. }
  pose proof (binder_subst_avoids_capture shared_num_params 1
                example_context (sym "x") (var "y") HF)
    as [Hfunc Hlam].
  split; [done|]. split.
  - apply (Hfunc (var "x") [(u8, Some (sym "y"))]
             [(u8, Some (sym "x")); (var "x", None)]).
    + repeat constructor. simpl. discriminate.
    + vm_compute; lia.
  - apply (Hlam (var "x") [(u8, sym "y")] []).
    + repeat constructor. simpl. discriminate.
    + vm_compute; lia.
Defined.

Lemma subst_each_same {A} X (f : A → Subst (bool * A)) l :
  (∀ x, x ∈ l → yields_from X (f x) (λ res, res.2 = x)) →
  yields_from X (subst_each f l) (λ res, res.2 = l).
Proof.
  induction l as [|x l IH]; intros Hf; simpl.
  - by apply yields_ret.
  - eapply yields_bind; [apply Hf; left|].
    intros [ok x'] Hx; simpl in Hx; subst x'. destruct ok; simpl.
    + eapply yields_bind; [apply IH; intros; apply Hf; by right|].
      intros [ok l'] Hl; simpl in Hl; subst l'. by apply yields_ret.
    + by apply yields_ret.
Qed.

Lemma forallb_elem {A} (p : A → bool) l x :
  forallb p l = true → x ∈ l → p x = true.
Proof.
  intros H Hx. induction Hx as [x l|x y l _ IH]; simpl in H;
    split_andb_hyps; auto.
Qed.

Ltac same_step IH :=
  eapply yields_bind; [apply IH; [lia|done]|];
  let ok := fresh "ok" in
  let e' := fresh "e'" in
  let E := fresh "E" in
  intros [ok e'] E; simpl in E; subst; try destruct ok; simpl;
  try (by apply yields_ret).

Lemma params_subst_left_alone {N} (as_symbol : N → option string) of_symbol
    (subst : Expr → string → Expr → Subst (bool * Expr))
    X name r F bound (u : Expr → bool) params : ∀ i tail,
  (∀ e, e ∈ tail :: params.*1 → u e = true →
        yields_from X (subst e name r) (λ res, res.2 = e)) →
  params_untouched (λ p, u p.1) (λ p, as_symbol p.2) name F params (u tail)
  = true →
  yields_from X
    (params_subst as_symbol of_symbol subst name r F bound i params tail)
    (λ res, res.2 = (params, tail)).
Proof.
  induction params as [|[ty x] rest IH]; intros i tail Hsub Hu;
    simpl in Hu |- *.
  - eapply yields_bind; [apply Hsub; [left | done]|].
    intros [ok tail'] Ht; simpl in Ht; subst tail'. by apply yields_ret.
  - apply andb_true_iff in Hu as [Hty Hu].
    eapply yields_bind; [apply Hsub; [right; left | done]|].
    intros [ok ty'] Ht; simpl in Ht; subst ty'. destruct ok; simpl.
    2: { by apply yields_ret. }
    assert (Hcontinue :
      params_untouched (λ p, u p.1) (λ p, as_symbol p.2) name F rest (u tail)
      = true →
      yields_from X
        (subst_bind (params_subst as_symbol of_symbol subst name r F bound
                       (S i) rest tail)
           (λ res, match res with
                   | (ok, (rest', tail'')) =>
                       subst_ret (ok, ((ty, x) :: rest', tail''))
                   end))
        (λ res, res.2 = ((ty, x) :: rest, tail))).
    { intros Hrest. eapply yields_bind.
      - apply IH; [|done]. intros e He. apply Hsub.
        rewrite fmap_cons. apply elem_of_cons in He as [->|He];
          [left | right; by right].
      - intros [ok [rest' tail']] Hr; simpl in Hr.
        injection Hr as -> ->. by apply yields_ret. }
    destruct (as_symbol x) as [old|]; [|by apply Hcontinue].
    destruct (String.eqb old name); [by apply yields_ret|].
    simpl in Hu. apply andb_true_iff in Hu as [Hold Hrest].
    apply negb_true_iff in Hold. rewrite Hold. by apply Hcontinue.
Qed.

Lemma record_fields_subst_left_alone {A} X (sub : A → Subst (bool * A))
    (field_name : A → string) name F (u : A → bool) l :
  (∀ x, x ∈ l → u x = true → yields_from X (sub x) (λ res, res.2 = x)) →
  fields_untouched u field_name name F l = true →
  yields_from X (record_fields_subst sub field_name name F l)
    (λ res, res.2 = l).
Proof.
  induction l as [|x l IH]; intros Hf Hu; simpl in Hu |- *.
  - by apply yields_ret.
  - apply andb_true_iff in Hu as [Hx Hu].
    eapply yields_bind; [apply Hf; [left | done]|].
    intros [ok x'] Ex; simpl in Ex; subst x'. destruct ok; simpl.
    2: { by apply yields_ret. }
    destruct (String.eqb (field_name x) name); [by apply yields_ret|].
    destruct (symbol_set_contains F (field_name x));
      [by apply yields_ret|].
    simpl in Hu.
    eapply yields_bind; [apply IH; [intros; apply Hf; [by right|done]|done]|].
    intros [ok l'] Hl; simpl in Hl; subst l'. by apply yields_ret.
Qed.

Lemma untouched_subst_same view X : ∀ budget,
  (∀ e name r, expr_height e < budget → untouched name r e = true →
     yields_from X (expr_subst view budget e name r) (λ res, res.2 = e)) ∧
  (∀ s name r, statement_height s < budget →
     untouched_statement name r s = true →
     yields_from X (statement_subst view budget s name r) (λ res, res.2 = s)).
Proof.
  induction budget as [|n [IHe IHs]]; [split; intros; lia|].
  split.
  - intros e name r Hh Hin. destruct e; simpl in Hh, Hin |- *;
      try discriminate; split_andb_hyps.
    + by apply yields_ret.
    + same_step IHe. same_step IHe.
    + same_step IHe. same_step IHe. same_step IHe.
    + eapply yields_bind.
      { apply (params_subst_left_alone id Some (expr_subst view n) X name r
                 _ _ (untouched name r)); [|exact Hin].
        intros x Hx Hu. apply IHe; [|done].
        apply elem_of_cons in Hx as [->|Hx]; [lia|].
        apply list_elem_of_fmap in Hx as ([ty nm] & -> & Hx). simpl.
        apply (max_of_elem (λ p, expr_height p.1)) in Hx.
        simpl in Hx. lia. }
      intros [ok [params' ret']] Hr; simpl in Hr. injection Hr as -> ->.
      by apply yields_ret.
    + eapply yields_bind.
      { apply (params_subst_left_alone Some id (expr_subst view n) X name r
                 _ _ (untouched name r)); [|exact Hin].
        intros x Hx Hu. apply IHe; [|done].
        apply elem_of_cons in Hx as [->|Hx]; [lia|].
        apply list_elem_of_fmap in Hx as ([ty nm] & -> & Hx). simpl.
        apply (max_of_elem (λ p, expr_height p.1)) in Hx.
        simpl in Hx. lia. }
      intros [ok [params' body']] Hr; simpl in Hr. injection Hr as -> ->.
      by apply yields_ret.
    + same_step IHe.
      eapply yields_bind.
      { apply subst_each_same. intros x Hx. apply IHe.
        - apply (max_of_elem expr_height) in Hx. lia.
        - eapply forallb_elem; eassumption. }
      intros [ok2 args'] E2; simpl in E2; subst. by apply yields_ret.
    + eapply yields_bind.
      { eapply (record_fields_subst_left_alone X _ snd name _
                  (λ p, untouched name r p.1)); [|exact Hin].
        intros [ty nm] Hx Hu. simpl in Hu |- *.
        eapply yields_bind.
        - apply IHe; [|done].
          apply (max_of_elem (λ p, expr_height p.1)) in Hx.
          simpl in Hx. lia.
        - intros [ok e'] E; simpl in E; subst. by apply yields_ret. }
      intros [ok fields'] E; simpl in E; subst. by apply yields_ret.
    + eapply yields_bind.
      { apply subst_each_same. intros [ty nm] Hx. simpl.
        eapply yields_bind.
        - apply IHe.
          + apply (max_of_elem (λ p, expr_height p.1)) in Hx.
            simpl in Hx. lia.
          + eapply forallb_elem in Hx; [exact Hx | eassumption].
        - intros [ok e'] E; simpl in E; subst. by apply yields_ret. }
      intros [ok fields'] E; simpl in E; subst. by apply yields_ret.
    + eapply yields_bind.
      { eapply (record_fields_subst_left_alone X _ fst name _
                  (λ p, untouched name r p.2)); [|exact Hin].
        intros [nm value] Hx Hu. simpl in Hu |- *.
        eapply yields_bind.
        - apply IHe; [|done].
          apply (max_of_elem (λ p, expr_height p.2)) in Hx.
          simpl in Hx. lia.
        - intros [ok e'] E; simpl in E; subst. by apply yields_ret. }
      intros [ok assigns'] E; simpl in E; subst. by apply yields_ret.
    + same_step IHe.
    + same_step IHe.
    + same_step IHe.
    + same_step IHe.
    + same_step IHs.
  - assert (Hblock : ∀ block name r,
              block_height block < n →
              forallb (untouched_statement name r) block = true →
              yields_from X
                (subst_each (λ s, statement_subst view n s name r) block)
                (λ res, res.2 = block)).
    { intros block name r Hb Hin. apply subst_each_same.
      intros x Hx. apply IHs.
      - apply (max_of_elem statement_height) in Hx.
        unfold block_height in Hb. lia.
      - eapply forallb_elem; eassumption. }
    intros s name r Hh Hin. destruct s; simpl in Hh, Hin |- *;
      split_andb_hyps.
    + by apply yields_ret.
    + same_step IHe.
    + same_step IHe.
    + eapply yields_bind; [apply Hblock; [unfold block_height; lia|done]|].
      intros [ok b'] E; simpl in E; subst. by apply yields_ret.
    + same_step IHe.
      destruct initial_value as [value|]; [|by apply yields_ret].
      same_step IHe.
    + eapply yields_bind.
      { apply subst_each_same. intros [c t] Hx. simpl.
        pose proof (max_of_elem
                      (λ p, expr_height p.1 `max`
                            max_of statement_height p.2) _ _ Hx) as Hm.
        simpl in Hm.
        eapply forallb_elem in Hx; [|eassumption]. simpl in Hx.
        split_andb_hyps.
        same_step IHe.
        eapply yields_bind;
          [apply Hblock; [unfold block_height; lia|done]|].
        intros [ok2 t'] E2; simpl in E2; subst. by apply yields_ret. }
      intros [ok ifs'] E; simpl in E; subst. destruct ok; simpl.
      2: { by apply yields_ret. }
      eapply yields_bind; [apply Hblock; [unfold block_height; lia|done]|].
      intros [ok2 els'] E2; simpl in E2; subst. by apply yields_ret.
Qed.

(** C2 (as stated, refuted): [q] is not free in [u8[u8 z]], yet substituting
    [z] for [q] succeeds and renames the parameter, and the result is not
    [equal] to the original. *)
Lemma renaming_is_observable_by_equal :
  (sym "q" ∉ expr_free_vars (EXPR_FUNC_TYPE u8 [(u8, Some (sym "z"))])) ∧
  ∃ expr' context',
    expr_subst shared_num_params 2
      (EXPR_FUNC_TYPE u8 [(u8, Some (sym "z"))]) (sym "q") (var "z")
      example_context
    = Some ((true, expr'), context') ∧
    expr_equal expr' (EXPR_FUNC_TYPE u8 [(u8, Some (sym "z"))]) = false.
Proof.
  split; [by vm_compute|].
  eexists _, _. split; [reflexivity|]. by vm_compute.
Qed.

(** C2 (amended): [expr_subst] on the identifier named like the target
    returns a deep copy of the replacement; and a term on which the
    traversal reaches no identifier and no parameter named by a free
    variable of the replacement (the traversal stops at a parameter or
    field named like the target) is returned exactly as it was, so that
    [equal] cannot tell the result from the original.  Nothing is said
    about a reached identifier that is not the target. *)
Theorem expr_subst_touches_only_target view budget context y r :
  (0 < budget →
   expr_subst view budget (EXPR_IDENT y) y r context
   = Some ((true, expr_copy r), context)) ∧
  (∀ x, untouched y r x = true → expr_height x < budget →
     ∃ ok context',
       expr_subst view budget x y r context = Some ((ok, x), context')).
Proof.
  split.
  - intros Hb. destruct budget as [|n]; [lia | reflexivity].
  - intros x Hin Hb.
    destruct (yields_run _ _ context
                (proj1 (untouched_subst_same view ∅ budget) x y r Hb Hin))
      as ([ok x'] & c' & E & Hx).
    simpl in Hx. subst x'. eauto.
Qed.

Lemma expr_subst_touches_only_target_witness :
  (0 < 2 ∧
   expr_subst shared_num_params 2 (EXPR_IDENT (sym "x")) (sym "x") (num 42)
     example_context
   = Some ((true, expr_copy (num 42)), example_context)) ∧
  (untouched (sym "x") (num 42) (EXPR_LAMBDA [(u8, sym "x")] (var "x"))
   = true ∧
   expr_height (EXPR_LAMBDA [(u8, sym "x")] (var "x")) < 2 ∧
   ∃ ok context',
     expr_subst shared_num_params 2
       (EXPR_LAMBDA [(u8, sym "x")] (var "x")) (sym "x") (num 42)
       example_context
     = Some ((ok, EXPR_LAMBDA [(u8, sym "x")] (var "x")), context')).
Proof.
  split.
  - split; [lia|].
    apply (proj1 (expr_subst_touches_only_target shared_num_params 2
                    example_context (sym "x") (num 42))). lia.
  - split; [reflexivity|]. split; [vm_compute; lia|].
    apply (proj2 (expr_subst_touches_only_target shared_num_params 2
                    example_context (sym "x") (num 42)));
      [reflexivity | vm_compute; lia].
Defined.


(** ** Further properties of deep copy and structural equality *)

Lemma statement_copy_id s : statement_copy s = s.
Proof. apply expr_copy_id_aux. Qed.

(** X1: a deep copy has the structure of the original: [expr_copy],
    [statement_copy] and [block_copy] return a term identical to their
    argument, so a copy has the free variables of the original and
    compares by [expr_equal] as the original does. *)
Theorem copy_preserves_structure :
  (∀ x, expr_copy x = x) ∧
  (∀ s, statement_copy s = s) ∧
  (∀ b, block_copy b = b) ∧
  (∀ x, expr_free_vars (expr_copy x) = expr_free_vars x) ∧
  (∀ x y, expr_equal (expr_copy x) y = expr_equal x y).
Proof.
  split; [apply expr_copy_id|]. split; [apply statement_copy_id|].
  split.
  - intros b. unfold block_copy. apply map_fixed, Forall_forall.
    intros s _. apply statement_copy_id.
  - split; intros; by rewrite expr_copy_id.
Qed.

Lemma pairwise_eq {A} (f : A → A → bool) xs ys :
  Forall (λ x, ∀ y, f x y = true → x = y) xs →
  length xs = length ys →
  pairwise f xs ys = true → xs = ys.
Proof.
  intros Hall. revert ys.
  induction Hall as [|x xs Hx _ IH]; intros [|y ys] Hlen;
    simpl in *; try discriminate; [done|].
  destruct (f x y) eqn:E; [|discriminate].
  intros Hp. f_equal; [by apply Hx | apply IH; [lia | done]].
Qed.

Lemma literal_equal_eq a b : literal_equal a b = true → a = b.
Proof.
  destruct a, b; simpl; try discriminate; try reflexivity.
  - intros H. apply N.eqb_eq in H. by subst.
  - intros H. apply Bool.eqb_prop in H. by subst.
Qed.

Lemma option_symbol_eqb_eq a b : option_symbol_eqb a b = true → a = b.
Proof.
  destruct a, b; simpl; try discriminate; try reflexivity.
  intros H. apply String.eqb_eq in H. by subst.
Qed.

Lemma if_false_true (b : bool) (c : bool) :
  (if b then false else c) = true → b = false ∧ c = true.
Proof. by destruct b. Qed.

Lemma expr_equal_sound_aux x :
  no_bin_op_no_lambda x = true → ∀ y, expr_equal x y = true → x = y.
Proof.
  unfold no_bin_op_no_lambda.
  induction x using Expr_nested_ind with (Q := λ _, True);
    try exact I; try (intros; exact I); simpl; try discriminate;
    intros Hx y; destruct y; simpl; try discriminate;
    split_andb_hyps.
  - intros E. f_equal. by apply literal_equal_eq.
  - intros E. f_equal. by apply String.eqb_eq.
  - intros E. split_andb_hyps. f_equal; auto.
  - intros E. apply if_false_true in E as [Hc E].
    apply orb_false_iff in Hc as [Hr Hl].
    apply negb_false_iff in Hr, Hl. apply Nat.eqb_eq in Hl.
    f_equal; [auto|]. apply pairwise_eq in E; [done| |done].
    apply Forall_forall. intros [t n] Hin [t' n'] Hp. simpl in Hp.
    split_andb_hyps. f_equal.
    + apply (proj1 (Forall_forall _ _) H _ Hin); [|done].
      eapply forallb_elem in Hin; [exact Hin | eassumption].
    + by apply option_symbol_eqb_eq.
  - intros E. apply if_false_true in E as [Hc E].
    apply orb_false_iff in Hc as [Hr Hl].
    apply negb_false_iff in Hr, Hl. apply Nat.eqb_eq in Hl.
    f_equal; [auto|]. apply pairwise_eq in E; [done| |done].
    apply Forall_forall. intros a Hin b Hp.
    apply (proj1 (Forall_forall _ _) H _ Hin); [|done].
    eapply forallb_elem in Hin; [exact Hin | eassumption].
  - intros E. apply if_false_true in E as [Hl E].
    apply negb_false_iff in Hl. apply Nat.eqb_eq in Hl.
    f_equal. apply pairwise_eq in E; [done| |done].
    apply Forall_forall. intros [t n] Hin [t' n'] Hp. simpl in Hp.
    split_andb_hyps. f_equal.
    + apply (proj1 (Forall_forall _ _) H _ Hin); [|done].
      eapply forallb_elem in Hin; [exact Hin | eassumption].
    + by apply String.eqb_eq.
  - intros E. apply if_false_true in E as [Hl E].
    apply negb_false_iff in Hl. apply Nat.eqb_eq in Hl.
    f_equal. apply pairwise_eq in E; [done| |done].
    apply Forall_forall. intros [t n] Hin [t' n'] Hp. simpl in Hp.
    split_andb_hyps. f_equal.
    + apply (proj1 (Forall_forall _ _) H _ Hin); [|done].
      eapply forallb_elem in Hin; [exact Hin | eassumption].
    + by apply String.eqb_eq.
  - intros E. apply if_false_true in E as [Hc E].
    apply orb_false_iff in Hc as [Hr Hl].
    apply negb_false_iff in Hr, Hl. apply Nat.eqb_eq in Hl.
    f_equal; [auto|]. apply pairwise_eq in E; [done| |done].
    apply Forall_forall. intros [n a] Hin [n' a'] Hp. simpl in Hp.
    split_andb_hyps. f_equal.
    + by apply String.eqb_eq.
    + apply (proj1 (Forall_forall _ _) H _ Hin); [|done].
      eapply forallb_elem in Hin; [exact Hin | eassumption].
  - intros E. apply if_false_true in E as [Hc _].
    apply orb_false_iff in Hc as [Hr Hf].
    apply negb_false_iff in Hr, Hf. apply String.eqb_eq in Hf.
    f_equal; auto.
  - intros E. f_equal; auto.
  - intros E. f_equal; auto.
  - intros E. f_equal; auto.
Qed.

(** X2: on expressions without [BinOp] and [Lambda] sub-terms a positive
    answer of [expr_equal] is right: the two expressions are the same
    term. *)
Theorem expr_equal_sound x y :
  no_bin_op_no_lambda x = true → expr_equal x y = true → x = y.
Proof. intros Hx. by apply expr_equal_sound_aux. Qed.

Lemma expr_equal_sound_witness :
  no_bin_op_no_lambda (EXPR_CALL (var "f") [u8; num 2]) = true ∧
  expr_equal (EXPR_CALL (var "f") [u8; num 2])
    (EXPR_CALL (var "f") [u8; num 2]) = true ∧
  EXPR_CALL (var "f") [u8; num 2] = EXPR_CALL (var "f") [u8; num 2].
Proof.
  split; [reflexivity|]. split; [reflexivity|].
  apply expr_equal_sound; reflexivity.
Defined.

Lemma pairwise_same_names {A} (f : A * string → A * string → bool) ps qs :
  (∀ p q, p.2 = q.2 → f p q = true) →
  ps.*2 = qs.*2 → pairwise f ps qs = true.
Proof.
  intros Hf. revert qs. induction ps as [|p ps IH]; intros [|q qs];
    simpl; try discriminate; [done|].
  intros [= Hpq Hrest]. rewrite (Hf p q Hpq). by apply IH.
Qed.

(** X3: two lambdas with the same parameter names, the same first
    parameter type and the same body are reported equal whatever their
    other parameter types are: the loop compares the first parameter types
    on each of its iterations. *)
Theorem expr_equal_lambda_ignores_later_types type0 name0 ps qs body :
  ps.*2 = qs.*2 →
  expr_equal type0 type0 = true →
  expr_equal body body = true →
  expr_equal (EXPR_LAMBDA ((type0, name0) :: ps) body)
    (EXPR_LAMBDA ((type0, name0) :: qs) body) = true.
Proof.
  intros Hnames Ht Hb. simpl.
  assert (Hlen : length ps = length qs).
  { by rewrite <- (length_fmap snd ps), Hnames, length_fmap. }
  rewrite Hlen, Nat.eqb_refl. simpl.
  rewrite Ht, String.eqb_refl. simpl.
  rewrite pairwise_same_names; [exact Hb| |exact Hnames].
  intros p q ->. apply String.eqb_refl.
Qed.

Lemma expr_equal_lambda_ignores_later_types_witness :
  expr_equal
    (EXPR_LAMBDA [(u8, sym "a"); (EXPR_LITERAL LIT_U16, sym "b")] (num 1))
    (EXPR_LAMBDA [(u8, sym "a"); (EXPR_LITERAL LIT_BOOL, sym "b")] (num 1))
  = true.
Proof.
  apply (expr_equal_lambda_ignores_later_types u8 (sym "a")
           [(EXPR_LITERAL LIT_U16, sym "b")]
           [(EXPR_LITERAL LIT_BOOL, sym "b")] (num 1)); reflexivity.
Defined.


(** ** Free variables, construct by construct *)

Lemma elem_of_delete_named set x s :
  s ∈ delete_named set x ↔ s ∈ set ∧ x ≠ Some s.
Proof.
  destruct x as [y|]; simpl; unfold symbol_set_delete.
  - rewrite elem_of_difference, elem_of_singleton.
    split; intros [? ?]; split; auto; congruence.
  - split; [intros ?; split; [done | discriminate] | by intros [? _]].
Qed.

Lemma elem_of_foldl_delete {A} (name_of : A → option string) seen set s :
  s ∈ foldl (λ temp q, delete_named temp (name_of q)) set seen ↔
  s ∈ set ∧ Forall (λ q, name_of q ≠ Some s) seen.
Proof.
  revert set. induction seen as [|q seen IH]; intros set; simpl.
  - split; [intros ?; split; [done | constructor] | by intros [? _]].
  - rewrite IH, elem_of_delete_named, Forall_cons. tauto.
Qed.

Lemma elem_of_scoped_free_vars {A} (fv : A → gset string)
    (name_of : A → option string) entries : ∀ seen acc s,
  s ∈ scoped_free_vars fv name_of seen entries acc ↔
  s ∈ acc ∨
  ∃ pre p post, entries = pre ++ p :: post ∧ s ∈ fv p ∧
                Forall (λ q, name_of q ≠ Some s) (seen ++ pre).
Proof.
  induction entries as [|p entries IH]; intros seen acc s; simpl.
  - split; [by left|]. intros [?|(pre & q & post & E & _)]; [done|].
    by destruct pre.
  - rewrite IH. unfold symbol_set_union.
    rewrite elem_of_union, elem_of_foldl_delete. split.
    + intros [[Hacc|[Hp Hseen]]|(pre & q & post & -> & Hq & Hall)].
      * by left.
      * right. exists [], p, entries. by rewrite app_nil_r.
      * right. exists (p :: pre), q, post.
        rewrite <- app_assoc in Hall. done.
    + intros [Hacc|(pre & q & post & E & Hq & Hall)]; [by left; left|].
      destruct pre as [|p' pre]; simpl in E; injection E as -> ->.
      * left. right. by rewrite app_nil_r in Hall.
      * right. exists pre, q, post. rewrite <- app_assoc. done.
Qed.

Lemma elem_of_foldl_union {A} (g : A → gset string) l acc s :
  s ∈ foldl (λ fv p, symbol_set_union fv (g p)) acc l ↔
  s ∈ acc ∨ ∃ p, p ∈ l ∧ s ∈ g p.
Proof.
  revert acc. induction l as [|x l IH]; intros acc; simpl.
  - split; [by left|]. intros [?|(p & Hp & _)]; [done|].
    by apply elem_of_nil in Hp.
  - rewrite IH. unfold symbol_set_union. rewrite elem_of_union. split.
    + intros [[?|?]|(p & Hp & Hs)]; [by left| |].
      * right. exists x. split; [left | done].
      * right. exists p. split; [by right | done].
    + intros [?|(p & Hp & Hs)]; [by left; left|].
      apply elem_of_cons in Hp as [->|Hp]; [by left; right|].
      right. by exists p.
Qed.

(** X4: a struct is a dependent record: a symbol is free in it exactly
    when it is free in the type of some field and is not the name of an
    earlier field.  A field name does not bind in its own type. *)
Theorem struct_free_vars fields s :
  s ∈ expr_free_vars (EXPR_STRUCT fields) ↔
  ∃ before type field after,
    fields = before ++ (type, field) :: after ∧
    s ∈ expr_free_vars type ∧ s ∉ before.*2.
Proof.
  simpl. rewrite elem_of_scoped_free_vars. unfold symbol_set_empty. split.
  - intros [Hs|(pre & [ty f] & post & -> & Hty & Hall)].
    + by apply not_elem_of_empty in Hs.
    + exists pre, ty, f, post. split; [done|]. split; [done|].
      simpl in Hall. intros Hin.
      apply list_elem_of_fmap in Hin as (q & -> & Hq).
      by apply (proj1 (Forall_forall _ _) Hall q Hq).
  - intros (pre & ty & f & post & -> & Hty & Hnot). right.
    exists pre, (ty, f), post. split; [done|]. split; [done|]. simpl.
    apply Forall_forall. intros q Hq [= Hs]. apply Hnot.
    apply list_elem_of_fmap. by exists q.
Qed.

Lemma elem_of_foldl_delete_names {A} (ps : list (A * string)) set s :
  s ∈ foldl (λ fv p, symbol_set_delete fv p.2) set ps ↔
  s ∈ set ∧ s ∉ ps.*2.
Proof.
  revert set. induction ps as [|p ps IH]; intros set; simpl.
  - split; [intros ?; split; [done|apply not_elem_of_nil] | by intros [? _]].
  - rewrite IH. unfold symbol_set_delete.
    rewrite elem_of_difference, elem_of_singleton, not_elem_of_cons.
    split; [intros [[? ?] ?] | intros [? [? ?]]]; auto.
Qed.

(** X5: the parameters of a lambda bind in the body and in the types of
    the later parameters: a symbol is free in the lambda exactly when it
    is free in the body and no parameter has its name, or it is free in
    the type of some parameter and no earlier parameter has its name. *)
Theorem lambda_free_vars params body s :
  s ∈ expr_free_vars (EXPR_LAMBDA params body) ↔
  (s ∈ expr_free_vars body ∧ s ∉ params.*2) ∨
  ∃ before type name after,
    params = before ++ (type, name) :: after ∧
    s ∈ expr_free_vars type ∧ s ∉ before.*2.
Proof.
  simpl. rewrite elem_of_scoped_free_vars, elem_of_foldl_delete_names.
  split.
  - intros [Hs|(pre & [ty f] & post & -> & Hty & Hall)]; [by left|].
    right. exists pre, ty, f, post. split; [done|]. split; [done|].
    simpl in Hall. intros Hin.
    apply list_elem_of_fmap in Hin as (q & -> & Hq).
    by apply (proj1 (Forall_forall _ _) Hall q Hq).
  - intros [Hs|(pre & ty & f & post & -> & Hty & Hnot)]; [by left|].
    right. exists pre, (ty, f), post. split; [done|]. split; [done|]. simpl.
    apply Forall_forall. intros q Hq [= Hs]. apply Hnot.
    apply list_elem_of_fmap. by exists q.
Qed.

Lemma elem_of_foldl_delete_named {A} (ps : list (A * option string)) set s :
  s ∈ foldl (λ fv p, delete_named fv p.2) set ps ↔
  s ∈ set ∧ Some s ∉ ps.*2.
Proof.
  rewrite (elem_of_foldl_delete snd ps set s).
  rewrite Forall_forall. split; intros [Hs Hall]; split; auto.
  - intros Hin. apply list_elem_of_fmap in Hin as (q & Hq & Hin).
    by apply (Hall q Hin).
  - intros q Hq Heq. apply Hall. apply list_elem_of_fmap. by exists q.
Qed.

(** X6: the named parameters of a function type bind in the return type
    and in the types of the later parameters; a parameter without a name
    binds nothing. *)
Theorem func_type_free_vars ret_type params s :
  s ∈ expr_free_vars (EXPR_FUNC_TYPE ret_type params) ↔
  (s ∈ expr_free_vars ret_type ∧ Some s ∉ params.*2) ∨
  ∃ before type name after,
    params = before ++ (type, name) :: after ∧
    s ∈ expr_free_vars type ∧ Some s ∉ before.*2.
Proof.
  simpl. rewrite elem_of_scoped_free_vars, elem_of_foldl_delete_named.
  split.
  - intros [Hs|(pre & [ty f] & post & -> & Hty & Hall)]; [by left|].
    right. exists pre, ty, f, post. split; [done|]. split; [done|].
    simpl in Hall. intros Hin.
    apply list_elem_of_fmap in Hin as (q & Heq & Hq).
    by apply (proj1 (Forall_forall _ _) Hall q Hq).
  - intros [Hs|(pre & ty & f & post & -> & Hty & Hnot)]; [by left|].
    right. exists pre, (ty, f), post. split; [done|]. split; [done|]. simpl.
    apply Forall_forall. intros q Hq Heq. apply Hnot.
    apply list_elem_of_fmap. by exists q.
Qed.

(** X7: calls, unions and packs bind nothing: a symbol is free in a call
    when it is free in the callee or in an argument, in a union when it is
    free in a field type (a field name does not hide it), and in a pack
    when it is free in the type or in an assigned value. *)
Theorem call_union_pack_free_vars s :
  (∀ func args,
     s ∈ expr_free_vars (EXPR_CALL func args) ↔
     s ∈ expr_free_vars func ∨ ∃ a, a ∈ args ∧ s ∈ expr_free_vars a) ∧
  (∀ fields,
     s ∈ expr_free_vars (EXPR_UNION fields) ↔
     ∃ f, f ∈ fields ∧ s ∈ expr_free_vars f.1) ∧
  (∀ type assigns,
     s ∈ expr_free_vars (EXPR_PACK type assigns) ↔
     s ∈ expr_free_vars type ∨ ∃ a, a ∈ assigns ∧ s ∈ expr_free_vars a.2).
Proof.
  split; [|split].
  - intros func args. simpl. apply elem_of_foldl_union.
  - intros fields. simpl.
    rewrite (elem_of_foldl_union (λ p : Expr * string, expr_free_vars p.1)).
    unfold symbol_set_empty. split; [|by right].
    intros [Hs|?]; [|done]. by apply not_elem_of_empty in Hs.
  - intros type assigns. simpl.
    apply (elem_of_foldl_union (λ p : string * Expr, expr_free_vars p.2)).
Qed.

(** X8: a declaration binds in the statements that follow it in its
    block: a symbol is free in a block exactly when it is free in one of
    its statements and no earlier statement of the block declares it. *)
Theorem block_free_vars_scoping block s :
  s ∈ block_free_vars block ↔
  ∃ before statement after,
    block = before ++ statement :: after ∧
    s ∈ statement_free_vars statement ∧
    Forall (λ d, decl_name d ≠ Some s) before.
Proof.
  induction block as [|st block IH].
  - split; [intros Hs; by apply not_elem_of_empty in Hs|].
    intros (pre & q & post & E & _). by destruct pre.
  - rewrite block_free_vars_cons, elem_of_union.
    assert (Hdel : s ∈ match st with
                       | STATEMENT_DECL _ d _ => block_free_vars block ∖ {[d]}
                       | _ => block_free_vars block
                       end ↔
                   s ∈ block_free_vars block ∧ decl_name st ≠ Some s).
    { destruct st; simpl;
        try (split; [intros ?; split; [done|discriminate] | by intros [? _]]).
      rewrite elem_of_difference, elem_of_singleton.
      split; intros [? ?]; split; auto; congruence. }
    rewrite Hdel, IH. split.
    + intros [[(pre & q & post & -> & Hq & Hall) Hst]|Hs].
      * exists (st :: pre), q, post. split; [done|]. split; [done|].
        by constructor.
      * exists [], st, block. split; [done|]. split; [done|]. constructor.
    + intros (pre & q & post & E & Hq & Hall).
      destruct pre as [|p' pre]; simpl in E; injection E as -> ->.
      * by right.
      * inversion Hall; subst. left. split; [|done]. by exists pre, q, post.
Qed.


(** ** Further properties of substitution *)

Lemma statement_subst_spec view X budget s name r :
  statement_height s + expr_height r < budget →
  yields_from X (statement_subst view budget s name r)
    (subst_post statement_shape X s r).
Proof. apply subst_spec. Qed.

Lemma block_subst_spec view X budget block name r :
  block_height block + expr_height r < budget →
  yields_from X (block_subst view budget block name r)
    (subst_post block_shape X block r).
Proof.
  intros Hb. unfold block_subst.
  apply (subst_each_post statement_shape X r). intros x Hx.
  apply statement_subst_spec.
  apply (max_of_elem statement_height) in Hx. unfold block_height in Hb. lia.
Qed.

(** X9: substitution terminates: with a recursion budget above the depth
    of the term plus the depth of the replacement, [expr_subst],
    [statement_subst] and [block_subst] return; the term they leave behind
    is at most the depth of the replacement deeper than the original, and
    every symbol that was interned still is. *)
Theorem subst_terminates view budget context name replacement :
  (∀ expr,
     expr_height expr + expr_height replacement < budget →
     ∃ ok expr' context',
       expr_subst view budget expr name replacement context
       = Some ((ok, expr'), context') ∧
       expr_height expr' ≤ expr_height expr + expr_height replacement ∧
       interns context ⊆ interns context') ∧
  (∀ statement,
     statement_height statement + expr_height replacement < budget →
     ∃ ok statement' context',
       statement_subst view budget statement name replacement context
       = Some ((ok, statement'), context') ∧
       statement_height statement'
         ≤ statement_height statement + expr_height replacement ∧
       interns context ⊆ interns context') ∧
  (∀ block,
     block_height block + expr_height replacement < budget →
     ∃ ok block' context',
       block_subst view budget block name replacement context
       = Some ((ok, block'), context') ∧
       block_height block' ≤ block_height block + expr_height replacement ∧
       interns context ⊆ interns context').
Proof.
  split; [|split].
  - intros expr Hb.
    destruct (expr_subst_spec view ∅ budget expr name replacement Hb context)
      as ([ok e'] & c' & E & (Hh & _) & Hsub); [apply empty_subseteq|].
    by exists ok, e', c'.
  - intros statement Hb.
    destruct (statement_subst_spec view ∅ budget statement name replacement
                Hb context)
      as ([ok s'] & c' & E & (Hh & _) & Hsub); [apply empty_subseteq|].
    by exists ok, s', c'.
  - intros block Hb.
    destruct (block_subst_spec view ∅ budget block name replacement
                Hb context)
      as ([ok b'] & c' & E & (Hh & _) & Hsub); [apply empty_subseteq|].
    by exists ok, b', c'.
Qed.

Lemma subst_terminates_witness :
  (∃ ok expr' context',
     expr_subst shared_num_params 3
       (EXPR_LAMBDA [(u8, sym "y")] (var "x")) (sym "x")
       (EXPR_POINTER (var "y")) example_context
     = Some ((ok, expr'), context') ∧
     expr_height expr'
       ≤ expr_height (EXPR_LAMBDA [(u8, sym "y")] (var "x")) +
         expr_height (EXPR_POINTER (var "y")) ∧
     interns example_context ⊆ interns context') ∧
  (∃ ok block' context',
     block_subst shared_num_params 3 capturing_block (sym "x")
       (var "y") example_context
     = Some ((ok, block'), context') ∧
     block_height block' ≤ block_height capturing_block +
                           expr_height (var "y") ∧
     interns example_context ⊆ interns context').
Proof.
  split.
  - apply (proj1 (subst_terminates shared_num_params 3 example_context
                    (sym "x") (EXPR_POINTER (var "y")))).
    vm_compute; lia.
  - apply (proj2 (proj2 (subst_terminates shared_num_params 3
                           example_context (sym "x") (var "y")))).
    vm_compute; lia.
Defined.

Lemma subst_each_pure {A} (f : A → Subst (bool * A)) (g : A → A) l c :
  (∀ x, x ∈ l → f x c = Some ((true, g x), c)) →
  subst_each f l c = Some ((true, map g l), c).
Proof.
  induction l as [|x l IH]; intros Hf; simpl; [done|].
  unfold subst_bind at 1. rewrite (Hf x) by left. simpl.
  unfold subst_bind. rewrite IH; [done|]. intros y Hy. apply Hf. by right.
Qed.

Lemma plain_subst_aux view name r c : ∀ n,
  (∀ e, expr_height e < n → plain e = true →
     expr_subst view n e name r c = Some ((true, replace_idents r e), c)) ∧
  (∀ s, statement_height s < n → plain_statement s = true →
     statement_subst view n s name r c
     = Some ((true, replace_idents_statement r s), c)).
Proof.
  unfold plain, plain_statement, plain_node.
  induction n as [|n [IHe IHs]]; [split; intros; lia|].
  assert (Hblock : ∀ b, max_of statement_height b < n →
            forallb (statement_all (λ node, negb (is_binder_or_record node)))
              b = true →
            subst_each (λ s, statement_subst view n s name r) b c
            = Some ((true, map (replace_idents_statement r) b), c)).
  { intros b Hb Hp. apply subst_each_pure. intros x Hx. apply IHs.
    - apply (max_of_elem statement_height) in Hx. lia.
    - eapply forallb_elem; eassumption. }
  split.
  - intros e Hh Hp. destruct e; simpl in Hh, Hp |- *; try discriminate;
      split_andb_hyps; unfold subst_bind, subst_ret;
      rewrite ?expr_copy_id; try reflexivity;
      repeat (rewrite IHe by (done || lia); simpl);
      try reflexivity.
    + rewrite (subst_each_pure _ (replace_idents r)); [done|].
      intros x Hx. apply IHe.
      * apply (max_of_elem expr_height) in Hx. lia.
      * eapply forallb_elem; eassumption.
    + rewrite (subst_each_pure _ (λ p, (replace_idents r p.1, p.2)));
        [done|].
      intros x Hx. rewrite IHe; [done| |].
      * apply (max_of_elem (λ p, expr_height p.1)) in Hx. simpl in Hx. lia.
      * eapply forallb_elem in Hx; [exact Hx | eassumption].
    + rewrite IHs by (done || lia). done.
  - intros s Hh Hp. destruct s; simpl in Hh, Hp |- *;
      split_andb_hyps; unfold subst_bind, subst_ret; try reflexivity;
      repeat (rewrite IHe by (done || lia); simpl);
      try reflexivity.
    + rewrite Hblock by (done || lia). done.
    + destruct initial_value as [value|]; [|done].
      rewrite IHe by (done || lia). done.
    + rewrite (subst_each_pure _
                 (λ p, (replace_idents r p.1,
                        map (replace_idents_statement r) p.2))).
      * simpl. rewrite Hblock by (done || lia). done.
      * intros [cond then_] Hx. simpl.
        pose proof (max_of_elem
                      (λ p, expr_height p.1 `max`
                            max_of statement_height p.2) _ _ Hx) as Hm.
        simpl in Hm.
        eapply forallb_elem in Hx; [|eassumption]. simpl in Hx.
        split_andb_hyps.
        rewrite IHe by (done || lia). simpl.
        rewrite Hblock by (done || lia). done.
Qed.

(** X10: on a term without [FuncType], [Lambda], [Struct] and [Pack]
    sub-terms substitution succeeds, leaves the context as it is, and
    returns the term with every identifier occurrence replaced by the
    replacement; the target name plays no part in the result. *)
Theorem plain_subst_replaces_every_ident
    view budget context name replacement :
  (∀ expr,
     plain expr = true → expr_height expr < budget →
     expr_subst view budget expr name replacement context
     = Some ((true, replace_idents replacement expr), context)) ∧
  (∀ statement,
     plain_statement statement = true →
     statement_height statement < budget →
     statement_subst view budget statement name replacement context
     = Some ((true, replace_idents_statement replacement statement),
             context)).
Proof.
  split; intros; by apply plain_subst_aux.
Qed.

Lemma plain_subst_replaces_every_ident_witness :
  plain (EXPR_BIN_OP BIN_OP_ADD (var "a") (EXPR_CALL (var "f") [var "x"]))
  = true ∧
  expr_subst shared_num_params 3
    (EXPR_BIN_OP BIN_OP_ADD (var "a") (EXPR_CALL (var "f") [var "x"]))
    (sym "x") (num 42) example_context
  = Some ((true,
           EXPR_BIN_OP BIN_OP_ADD (num 42) (EXPR_CALL (num 42) [num 42])),
          example_context).
Proof.
  split; [reflexivity|].
  apply (proj1 (plain_subst_replaces_every_ident shared_num_params 3
                  example_context (sym "x") (num 42))
           (EXPR_BIN_OP BIN_OP_ADD (var "a")
              (EXPR_CALL (var "f") [var "x"])));
    [reflexivity | vm_compute; lia].
Defined.


Lemma block_free_vars_with_subset fv (R : gset string) b :
  Forall (λ s, fv s ⊆ R) b → block_free_vars_with fv b ⊆ R.
Proof.
  induction 1 as [|s b Hs _ IH]; simpl; [apply empty_subseteq|].
  unfold symbol_set_union, symbol_set_delete.
  apply union_least; [|done].
  destruct s; try done. etrans; [apply subseteq_difference_l|]; done.
Qed.

Lemma foldl_union_bounded {A} (g : A → gset string) (R : gset string) l acc :
  acc ⊆ R → Forall (λ x, g x ⊆ R) l →
  foldl (λ fv p, symbol_set_union fv (g p)) acc l ⊆ R.
Proof.
  intros Hacc Hl. revert acc Hacc.
  induction Hl as [|x l Hx _ IH]; intros acc Hacc; simpl; [done|].
  apply IH. unfold symbol_set_union. by apply union_least.
Qed.

Lemma foldl_last_bounded {A} (h : A → gset string) (R : gset string) l acc :
  acc ⊆ R → Forall (λ x, h x ⊆ R) l → foldl (λ _ p, h p) acc l ⊆ R.
Proof.
  intros Hacc Hl. revert acc Hacc.
  induction Hl as [|x l Hx _ IH]; intros acc Hacc; simpl; [done|].
  by apply IH.
Qed.

Lemma Forall_plain_map {A} (p : A → bool) (P : A → Prop) l :
  forallb p l = true → Forall (λ x, p x = true → P x) l → Forall P l.
Proof.
  intros Hp Hl. induction Hl as [|x l Hx _ IH]; simpl in Hp; [constructor|].
  split_andb_hyps. constructor; auto.
Qed.

Lemma replace_idents_free_vars r :
  (∀ e, plain e = true →
        expr_free_vars (replace_idents r e) ⊆ expr_free_vars r) ∧
  (∀ s, plain_statement s = true →
        statement_free_vars (replace_idents_statement r s)
        ⊆ expr_free_vars r).
Proof.
  unfold plain, plain_statement, plain_node.
  apply ast_ind; simpl; intros; try discriminate; split_andb_hyps;
    unfold symbol_set_union, symbol_set_empty;
    repeat (match goal with
            | H : ?A = true → _, H' : ?A = true |- _ => specialize (H H')
            end);
    repeat (match goal with |- _ ∪ _ ⊆ _ => apply union_least end);
    try assumption; try apply empty_subseteq; try reflexivity.
  - apply foldl_union_bounded; [assumption|].
    apply Forall_fmap. eapply Forall_plain_map; [eassumption|].
    eapply Forall_impl; [eassumption|]. simpl. auto.
  - apply foldl_union_bounded; [apply empty_subseteq|].
    apply Forall_fmap. eapply Forall_plain_map; [eassumption|].
    eapply Forall_impl; [eassumption|]. simpl. auto.
  - apply block_free_vars_with_subset.
    apply Forall_fmap. eapply Forall_plain_map; [eassumption|].
    eapply Forall_impl; [eassumption|]. simpl. auto.
  - destruct init as [e|]; simpl in *; split_andb_hyps; [|done].
    apply union_least; auto.
  - assert (Hblock : ∀ b,
      Forall (λ s, statement_all
                     (λ node, negb (is_binder_or_record node)) s = true →
                   statement_free_vars (replace_idents_statement r s)
                   ⊆ expr_free_vars r) b →
      forallb (statement_all (λ node, negb (is_binder_or_record node))) b
      = true →
      block_free_vars_with statement_free_vars
        (map (replace_idents_statement r) b) ⊆ expr_free_vars r).
    { intros b Hall Hp. apply block_free_vars_with_subset.
      apply Forall_fmap. eapply Forall_plain_map; [eassumption|].
      eapply Forall_impl; [eassumption|]. simpl. auto. }
    apply (foldl_last_bounded
             (λ p, block_free_vars_with statement_free_vars p.2
                   ∪ expr_free_vars p.1)); [by apply Hblock|].
    apply Forall_fmap. eapply Forall_plain_map; [eassumption|].
    eapply Forall_impl; [eassumption|]. simpl.
    intros [cond then_] [Hc Ht] Hp. simpl in *. split_andb_hyps.
    apply union_least; [by apply Hblock | by apply Hc].
Qed.

(** X11: after a substitution into a term without [FuncType], [Lambda],
    [Struct] and [Pack] sub-terms, every free variable of the result is a
    free variable of the replacement: no identifier of the original term
    survives, whether or not it is the target. *)
Theorem plain_subst_free_vars view budget context name replacement expr :
  plain expr = true → expr_height expr < budget →
  ∃ expr',
    expr_subst view budget expr name replacement context
    = Some ((true, expr'), context) ∧
    expr_free_vars expr' ⊆ expr_free_vars replacement.
Proof.
  intros Hp Hb. exists (replace_idents replacement expr). split.
  - by apply plain_subst_aux.
  - by apply replace_idents_free_vars.
Qed.

Lemma plain_subst_free_vars_witness :
  plain (EXPR_BIN_OP BIN_OP_ADD (var "a") (var "x")) = true ∧
  ∃ expr',
    expr_subst shared_num_params 2
      (EXPR_BIN_OP BIN_OP_ADD (var "a") (var "x"))
      (sym "x") (var "y") example_context
    = Some ((true, expr'), example_context) ∧
    expr_free_vars expr' ⊆ expr_free_vars (var "y").
Proof.
  split; [reflexivity|].
  apply plain_subst_free_vars; [reflexivity | vm_compute; lia].
Defined.



Lemma drop_past {A} (pre : list A) x post :
  drop (S (length pre)) (pre ++ x :: post) = post.
Proof. induction pre as [|y pre IH]; simpl; [done | exact IH]. Qed.

Lemma params_subst_shadowed {N} (as_symbol : N → option symbol)
    (of_symbol : symbol → N) subst name r F bound pre :
  ∀ i type x post tail c ok params' tail' c',
  as_symbol x = Some name →
  params_subst as_symbol of_symbol subst name r F bound i
    (pre ++ (type, x) :: post) tail c = Some ((ok, (params', tail')), c') →
  drop (S (length pre)) params' = post ∧
  (Forall (λ p, ∀ s, as_symbol p.2 = Some s →
                     symbol_set_contains F s = false) pre →
   tail' = tail ∧ params'.*2 = (pre ++ (type, x) :: post).*2).
Proof.
  induction pre as [|[t y] pre IH];
    intros i type x post tail c ok params' tail' c' Hx E; simpl in E;
    unfold subst_bind, subst_ret in E.
  - destruct (subst type name r c) as [[[ok1 type'] c1]|]; [|done].
    destruct ok1; simpl in E.
    + rewrite Hx, String.eqb_refl in E. by simplify_eq.
    + by simplify_eq.
  - destruct (subst t name r c) as [[[ok1 t'] c1]|]; [|done].
    destruct ok1; simpl in E; [|simplify_eq; simpl;
      split; [apply drop_past | intros _; split; [done|]]].
    2:{ by rewrite !fmap_app. }
    assert (Hcontinue : ∀ t1 y1 tail1 c2 res,
      params_subst as_symbol of_symbol subst name r F bound (S i)
        (pre ++ (type, x) :: post) tail1 c2 = Some res →
      drop (S (length pre)) res.1.2.1 = post ∧
      (Forall (λ p, ∀ s, as_symbol p.2 = Some s →
                         symbol_set_contains F s = false) pre →
       res.1.2.2 = tail1 ∧
       ((t1, y1) :: res.1.2.1).*2
       = ((t1, y1) :: pre ++ (type, x) :: post).*2)).
    { intros t1 y1 tail1 c2 [[ok2 [rest' tail2]] c3] E2. simpl.
      destruct (IH _ _ _ _ _ _ _ _ _ _ Hx E2) as [Hd HB].
      split; [done|]. intros Hpre. destruct (HB Hpre) as [-> Hn].
      split; [done|]. f_equal. exact Hn. }
    destruct (as_symbol y) as [s|] eqn:Hy.
    + destruct (String.eqb s name) eqn:Hs.
      { simplify_eq. simpl. split; [apply drop_past|]. by intros _. }
      destruct (symbol_set_contains F s) eqn:HF.
      * split.
        -- repeat case_match; simplify_eq; simpl;
             first [ apply drop_past
                   | match goal with
                     | H : params_subst _ _ _ _ _ _ _ _ _ _ _ = Some _ |- _ =>
                         apply (Hcontinue t y) in H; simpl in H; apply H
                     end ].
        -- intros Hall. apply Forall_cons in Hall as [Hy' _].
           specialize (Hy' _ Hy). congruence.
      * destruct (params_subst _ _ _ _ _ _ _ _ _ _ _) as [res|] eqn:E2;
          [|done].
        apply (Hcontinue t' y) in E2. destruct res as [[ok2 [rest' tail2]] c3].
        simpl in *. simplify_eq. destruct E2 as [Hd HB]. split; [done|].
        intros Hall. apply Forall_cons in Hall as [_ Hpre]. by apply HB.
    + destruct (params_subst _ _ _ _ _ _ _ _ _ _ _) as [res|] eqn:E2;
        [|done].
      apply (Hcontinue t' y) in E2. destruct res as [[ok2 [rest' tail2]] c3].
      simpl in *. simplify_eq. destruct E2 as [Hd HB]. split; [done|].
      intros Hall. apply Forall_cons in Hall as [_ Hpre]. by apply HB.
Qed.


(** X12: a parameter named like the target shadows it.  Substitution into
    a [Lambda] or a [FuncType] that has such a parameter returns a node of
    the same kind whose parameters after that one are untouched; when in
    addition no earlier parameter name is free in the replacement, the
    body (the return type) is untouched and the parameter names are
    unchanged. *)
Theorem binder_shadowing_stops_subst
    view budget context name replacement before type after :
  (∀ body,
     expr_height (EXPR_LAMBDA (before ++ (type, name) :: after) body) +
     expr_height replacement < budget →
     ∃ ok params' body' context',
       expr_subst view budget
         (EXPR_LAMBDA (before ++ (type, name) :: after) body)
         name replacement context
       = Some ((ok, EXPR_LAMBDA params' body'), context') ∧
       drop (S (length before)) params' = after ∧
       (Forall (λ p, p.2 ∉ expr_free_vars replacement) before →
        body' = body ∧
        params'.*2 = (before ++ (type, name) :: after).*2)) ∧
  (∀ before_ft after_ft ret_type,
     expr_height
       (EXPR_FUNC_TYPE ret_type
          (before_ft ++ (type, Some name) :: after_ft)) +
     expr_height replacement < budget →
     ∃ ok params' ret_type' context',
       expr_subst view budget
         (EXPR_FUNC_TYPE ret_type
            (before_ft ++ (type, Some name) :: after_ft))
         name replacement context
       = Some ((ok, EXPR_FUNC_TYPE ret_type' params'), context') ∧
       drop (S (length before_ft)) params' = after_ft ∧
       (Forall (λ p, ∀ s, p.2 = Some s → s ∉ expr_free_vars replacement)
          before_ft →
        ret_type' = ret_type ∧
        params'.*2 = (before_ft ++ (type, Some name) :: after_ft).*2)).
Proof.
  split.
  - intros body Hb.
    destruct (expr_subst_runs view budget _ name replacement context Hb)
      as (ok & e' & c' & E).
    destruct budget as [|n]; [done|]. simpl in E.
    unfold subst_bind, subst_ret in E.
    destruct (params_subst _ _ _ _ _ _ _ _ _ _ _)
      as [[[ok' [params' body']] c1]|] eqn:Ep; [|done].
    simplify_eq.
    pose proof Ep as Ep'.
    eapply params_subst_shadowed in Ep' as [Hd HB]; [|reflexivity].
    exists ok, params', body', c'.
    split; [simpl; unfold subst_bind; by rewrite Ep|].
    split; [done|]. intros Hall. apply HB.
    eapply Forall_impl; [exact Hall|]. intros p Hp s Hs. simplify_eq.
    unfold symbol_set_contains. by apply bool_decide_eq_false.
  - intros before_ft after_ft ret_type Hb.
    destruct (expr_subst_runs view budget _ name replacement context Hb)
      as (ok & e' & c' & E).
    destruct budget as [|n]; [done|]. simpl in E.
    unfold subst_bind, subst_ret in E.
    destruct (params_subst _ _ _ _ _ _ _ _ _ _ _)
      as [[[ok' [params' ret_type']] c1]|] eqn:Ep; [|done].
    simplify_eq.
    pose proof Ep as Ep'.
    eapply params_subst_shadowed in Ep' as [Hd HB]; [|reflexivity].
    exists ok, params', ret_type', c'.
    split; [simpl; unfold subst_bind; by rewrite Ep|].
    split; [done|]. intros Hall. apply HB.
    eapply Forall_impl; [exact Hall|]. intros p Hp s Hs.
    unfold symbol_set_contains. apply bool_decide_eq_false. by apply Hp.
Qed.

Lemma binder_shadowing_stops_subst_witness :
  (∃ ok params' body' context',
     expr_subst shared_num_params 3
       (EXPR_LAMBDA ([(u8, sym "y")] ++ (u8, sym "x") :: [(var "x", sym "z")])
          (var "x"))
       (sym "x") (num 1) example_context
     = Some ((ok, EXPR_LAMBDA params' body'), context') ∧
     drop (S (length [(u8, sym "y")])) params' = [(var "x", sym "z")] ∧
     (Forall (λ p, p.2 ∉ expr_free_vars (num 1)) [(u8, sym "y")] →
      body' = var "x" ∧
      params'.*2
      = ([(u8, sym "y")] ++ (u8, sym "x") :: [(var "x", sym "z")]).*2)) ∧
  (∃ ok params' ret_type' context',
     expr_subst shared_num_params 3
       (EXPR_FUNC_TYPE (var "x")
          ([(u8, None)] ++ (u8, Some (sym "x")) :: [(var "x", None)]))
       (sym "x") (num 1) example_context
     = Some ((ok, EXPR_FUNC_TYPE ret_type' params'), context') ∧
     drop (S (length [(u8, @None symbol)])) params' = [(var "x", None)] ∧
     (Forall (λ p, ∀ s, p.2 = Some s → s ∉ expr_free_vars (num 1))
        [(u8, @None symbol)] →
      ret_type' = var "x" ∧
      params'.*2
      = ([(u8, None)] ++ (u8, Some (sym "x")) :: [(var "x", None)]).*2)).
Proof.
  split.
  - apply (proj1 (binder_shadowing_stops_subst shared_num_params 3
                    example_context (sym "x") (num 1)
                    [(u8, sym "y")] u8 [(var "x", sym "z")])).
    vm_compute; lia.
  - apply (proj2 (binder_shadowing_stops_subst shared_num_params 3
                    example_context (sym "x") (num 1)
                    [] u8 [])
             [(u8, None)] [(var "x", None)]).
    vm_compute; lia.
Defined.

Lemma record_fields_subst_shadowed {A} (subst_entry : A → Subst (bool * A))
    (field_name : A → symbol) name F pre :
  ∀ x post c ok fields' c',
  field_name x = name →
  record_fields_subst subst_entry field_name name F (pre ++ x :: post) c
  = Some ((ok, fields'), c') →
  drop (S (length pre)) fields' = post.
Proof.
  induction pre as [|y pre IH]; intros x post c ok fields' c' Hx E;
    simpl in E; unfold subst_bind, subst_ret in E.
  - destruct (subst_entry x c) as [[[ok1 x'] c1]|]; [|done].
    destruct ok1; simpl in E; [|by simplify_eq].
    rewrite Hx, String.eqb_refl in E. by simplify_eq.
  - destruct (subst_entry y c) as [[[ok1 y'] c1]|]; [|done].
    destruct ok1; simpl in E; [|simplify_eq; apply drop_past].
    destruct (String.eqb (field_name y) name);
      [simplify_eq; apply drop_past|].
    destruct (symbol_set_contains F (field_name y));
      [simplify_eq; apply drop_past|].
    destruct (record_fields_subst _ _ _ _ _ _)
      as [[[ok2 rest'] c2]|] eqn:E2; [|done].
    simplify_eq. simpl. eapply IH; [reflexivity | exact E2].
Qed.

(** X13: a field named like the target shadows it.  Substitution into a
    [Struct] or a [Pack] that has such a field returns a node of the same
    kind (a [Pack] with the same type component) whose entries after that
    field are untouched. *)
Theorem record_shadowing_stops_subst view budget context name replacement :
  (∀ before type after,
     expr_height (EXPR_STRUCT (before ++ (type, name) :: after)) +
     expr_height replacement < budget →
     ∃ ok fields' context',
       expr_subst view budget
         (EXPR_STRUCT (before ++ (type, name) :: after))
         name replacement context
       = Some ((ok, EXPR_STRUCT fields'), context') ∧
       drop (S (length before)) fields' = after) ∧
  (∀ type before value after,
     expr_height (EXPR_PACK type (before ++ (name, value) :: after)) +
     expr_height replacement < budget →
     ∃ ok assigns' context',
       expr_subst view budget
         (EXPR_PACK type (before ++ (name, value) :: after))
         name replacement context
       = Some ((ok, EXPR_PACK type assigns'), context') ∧
       drop (S (length before)) assigns' = after).
Proof.
  split.
  - intros before type after Hb.
    destruct (expr_subst_runs view budget _ name replacement context Hb)
      as (ok & e' & c' & E).
    destruct budget as [|n]; [done|]. simpl in E.
    unfold subst_bind, subst_ret in E.
    destruct (record_fields_subst _ _ _ _ _ _)
      as [[[ok' fields'] c1]|] eqn:Ef; [|done].
    simplify_eq. exists ok, fields', c'.
    split; [simpl; unfold subst_bind, subst_ret; by rewrite Ef|].
    eapply record_fields_subst_shadowed; [|exact Ef]. reflexivity.
  - intros type before value after Hb.
    destruct (expr_subst_runs view budget _ name replacement context Hb)
      as (ok & e' & c' & E).
    destruct budget as [|n]; [done|]. simpl in E.
    unfold subst_bind, subst_ret in E.
    destruct (record_fields_subst _ _ _ _ _ _)
      as [[[ok' assigns'] c1]|] eqn:Ef; [|done].
    simplify_eq. exists ok, assigns', c'.
    split; [simpl; unfold subst_bind, subst_ret; by rewrite Ef|].
    eapply record_fields_subst_shadowed; [|exact Ef]. reflexivity.
Qed.

Lemma record_shadowing_stops_subst_witness :
  (∃ ok fields' context',
     expr_subst shared_num_params 3
       (EXPR_STRUCT ([(var "x", sym "a")] ++ (u8, sym "x") ::
                     [(var "x", sym "b")]))
       (sym "x") (num 1) example_context
     = Some ((ok, EXPR_STRUCT fields'), context') ∧
     drop (S (length [(var "x", sym "a")])) fields' = [(var "x", sym "b")]) ∧
  (∃ ok assigns' context',
     expr_subst shared_num_params 3
       (EXPR_PACK (var "t")
          ([(sym "a", var "x")] ++ (sym "x", num 2) ::
           [(sym "b", var "x")]))
       (sym "x") (num 1) example_context
     = Some ((ok, EXPR_PACK (var "t") assigns'), context') ∧
     drop (S (length [(sym "a", var "x")])) assigns' = [(sym "b", var "x")]).
Proof.
  split.
  - apply (proj1 (record_shadowing_stops_subst shared_num_params 3
                    example_context (sym "x") (num 1))
             [(var "x", sym "a")] u8 [(var "x", sym "b")]).
    vm_compute; lia.
  - apply (proj2 (record_shadowing_stops_subst shared_num_params 3
                    example_context (sym "x") (num 1))
             (var "t") [(sym "a", var "x")] (num 2) [(sym "b", var "x")]).
    vm_compute; lia.
Defined.

Lemma statement_subst_decl_name view budget s name r c ok s' c' :
  statement_subst view budget s name r c = Some ((ok, s'), c') →
  decl_name s' = decl_name s.
Proof.
  destruct budget as [|n]; [done|].
  destruct s; simpl; unfold subst_bind, subst_ret; intros E;
    repeat case_match; by simplify_eq.
Qed.

Lemma subst_each_keeps {A B} (g : A → B) (f : A → Subst (bool * A)) l :
  (∀ x c ok x' c', f x c = Some ((ok, x'), c') → g x' = g x) →
  ∀ c ok l' c', subst_each f l c = Some ((ok, l'), c') → g <$> l' = g <$> l.
Proof.
  intros Hf. induction l as [|x l IH]; intros c ok l' c' E; simpl in E;
    unfold subst_bind, subst_ret in E; [by simplify_eq|].
  destruct (f x c) as [[[ok1 x'] c1]|] eqn:Ex; [|done].
  apply Hf in Ex.
  destruct ok1; simpl in E; [|simplify_eq; rewrite !fmap_cons; by f_equal].
  destruct (subst_each f l c1) as [[[ok2 rest'] c2]|] eqn:El; [|done].
  apply IH in El. simplify_eq. rewrite !fmap_cons. by f_equal.
Qed.

(** X14: [block_subst] returns, and the block it leaves has as many
    statements as before, declaring the same names at the same positions,
    whatever the target and the replacement: substitution never renames
    a declaration. *)
Theorem block_subst_keeps_declarations
    view budget context block name replacement :
  block_height block + expr_height replacement < budget →
  ∃ ok block' context',
    block_subst view budget block name replacement context
    = Some ((ok, block'), context') ∧
    decl_name <$> block' = decl_name <$> block ∧
    length block' = length block.
Proof.
  intros Hb.
  destruct (yields_run _ _ context
              (block_subst_spec view ∅ budget block name replacement Hb))
    as ([ok block'] & c' & E & _).
  exists ok, block', c'. split; [done|].
  assert (Hn : decl_name <$> block' = decl_name <$> block).
  { unfold block_subst in E. eapply subst_each_keeps; [|exact E].
    intros x c1 ok1 x' c2. apply statement_subst_decl_name. }
  split; [done|].
  rewrite <- (length_fmap decl_name block'), Hn. apply length_fmap.
Qed.

Lemma block_subst_keeps_declarations_witness :
  ∃ ok block' context',
    block_subst shared_num_params 3 capturing_block (sym "x") (var "y")
      example_context
    = Some ((ok, block'), context') ∧
    decl_name <$> block' = decl_name <$> capturing_block ∧
    length block' = length capturing_block.
Proof.
  apply block_subst_keeps_declarations. vm_compute; lia.
Defined.


(** ** Properties of the printers *)

Lemma pretty_N_go_digit x : ∀ s,
  (s = "" ∧ (0 < x)%N) ∨ (∃ d t, s = String (pretty_N_char d) t) →
  ∃ d t, pretty_N_go x s = String (pretty_N_char d) t.
Proof.
  induction (N.lt_wf_0 x) as [x _ IH]; intros s Hs.
  assert (x = 0 ∨ 0 < x)%N as [->|Hpos] by lia.
  - rewrite pretty_N_go_0. destruct Hs as [[_ ?]|?]; [lia | done].
  - rewrite pretty_N_go_step by done. apply IH.
    + by apply N.div_lt.
    + right. eauto.
Qed.

Lemma pretty_N_digit (n : N) : ∃ d t, pretty n = String (pretty_N_char d) t.
Proof.
  unfold pretty, pretty_N. destruct (decide (n = 0%N)) as [->|Hn].
  - by exists 0%N, "".
  - apply pretty_N_go_digit. left. split; [done | lia].
Qed.

Lemma pretty_N_not_keyword (n : N) keyword :
  keyword ∈ ["type"; "void"; "u8"; "s8"; "u16"; "s16"; "u32"; "s32";
             "u64"; "s64"; "bool"; "true"; "false"] →
  pretty n ≠ keyword.
Proof.
  intros Hin E. destruct (pretty_N_digit n) as (d & t & Hd).
  rewrite Hd in E. subst keyword.
  rewrite !elem_of_cons, elem_of_nil in Hin.
  unfold pretty_N_char in Hin.
  repeat case_match;
    repeat (destruct Hin as [Hin|Hin]; [discriminate Hin|]); done.
Qed.

(** X15: the printers of literals and of binary operators are injective:
    two literals that print as the same text are the same literal, and
    likewise for operators. *)
Theorem literal_and_bin_op_pprint_injective :
  (∀ a b, literal_pprint a = literal_pprint b → a = b) ∧
  (∀ a b, bin_op_pprint a = bin_op_pprint b → a = b).
Proof.
  split.
  - intros a b E.
    destruct a as [| | | | | | | | | | |m|[|]],
             b as [| | | | | | | | | | |n|[|]];
      simpl in E; try done;
      try (by apply pretty_N_inj in E; subst);
      try (match type of E with _ = pretty _ => symmetry in E end);
      exfalso; revert E; apply pretty_N_not_keyword;
      rewrite !elem_of_cons; tauto.
  - intros a b E. destruct a, b; simpl in E; done.
Qed.
